(** * TableView (pulsar/table_view_impl.go): a shallow embedding

    [TableViewImpl] keeps a key-value view of a compacted topic: readers, one
    per partition, feed records to [handleMessage], which applies them to the
    map [tv.data] and calls the listeners; [partitionUpdateCheck] aligns the
    readers with the partitions of the topic.

    The embedding:
    - the data: the struct [TableViewImpl] and the [World] around it (the heap
      of Go map objects, the broker, and a record of every effect: readers
      opened and closed, cancellation handles called, goroutines started,
      callbacks called, lines logged);
    - programs: a free monad [Prog] of atomic actions over that state, one
      action per primitive operation of the source (a [Lock], an [Unlock], a
      map read or write, a callback call, ...). [run] executes one goroutine
      alone: it returns, waits for ever on a mutex, or panics ([reflect.New]
      on a nil [SchemaValueType]); [interleave] executes two under a
      schedule;
    - the methods of table_view_impl.go in that monad, statement by statement.

    The tailing loop [watchReaderForNewMessages] and the drain of
    [partitionUpdateCheck] take what their reader returns as an argument.

    What is assumed of the collaborators, which are outside
    table_view_impl.go:
    - the decoder returns a value or an error, and leaves its target as it was
      on error ([Schema]);
    - a reader's compacted backlog is finite: [HasNext] is true for finitely
      many [Next] ([Reader]);
    - a callback does not call back into the view; its calls are recorded and
      its error is a function of its arguments ([Listener]);
    - Go's [range] over a map visits every entry once in an order that may
      change from loop to loop ([GoRuntime]). *)

From Stdlib.Strings Require Import Byte.
From stdpp Require Import base option list functions gmap strings.

Set Default Proof Using "Type".

(** ** Errors and log entries *)

(** Go [error] values: the ones collaborators hand back, [context.Canceled],
    the client's own [*Error] built by [newError(result, msg)], and the ones
    the source builds with [fmt.Errorf("...%s...: %w", arg, err)]. *)
Inductive error : Type :=
| ExternalError (what : string)
| context_Canceled
| newError (result : string) (msg : string)
| Errorf (format : string) (arg : string) (wrapped : error).

(** [errors.As(err, &e)] for [e *Error]: the first [*Error] of the chain. *)
Fixpoint errors_As (err : error) : option (string * string) :=
  match err with
  | newError result msg => Some (result, msg)
  | Errorf _ _ wrapped => errors_As wrapped
  | _ => None
  end.

(** [errors.Is(err, context.Canceled)] *)
Fixpoint errors_Is_Canceled (err : error) : bool :=
  match err with
  | context_Canceled => true
  | Errorf _ _ wrapped => errors_Is_Canceled wrapped
  | _ => false
  end.

(** A message of the topic: [msg.Key()] and [msg.Payload()]. *)
Record Message : Type := mkMessage {
  Key : string;
  Payload : list byte;
}.

(** One call of [tv.logger.Errorf], by call site. *)
Inductive LogEntry : Type :=
| LogReadNextFailed (partition : string) (err : error)
| LogGetSchemaValueFailed (err : error) (msg : Message)
| LogListenerFailed (msg : Message) (err : error)
| LogPartitionCheckFailed (err : error).

(** ** The schema: [options.SchemaValueType] and the decoder behind
    [msg.GetSchemaValue] *)

(** Modelled from the spec: the payload decoder is a collaborator outside
    table_view_impl.go ("decode(rawPayload, targetType) -> Value |
    DecodeError"); a failed
    decode produces no value, so the target keeps what it held. [zeroValue] is
    what [reflect.New(SchemaValueType)] points to. *)
Class Schema : Type := {
  Value : Type;
  zeroValue : Value;
  decode : list byte → Value + error;
}.

(** ** The Go runtime: iteration order of [range] over a map *)

(** [range] over a Go map visits every entry once, in an order that is
    unspecified and may differ from one loop to the next. The order is a
    function of a seed that every [range] statement advances. *)
Class GoRuntime : Type := {
  range_map : ∀ {A : Type}, nat → gmap string A → list (string * A);
  range_map_perm : ∀ (A : Type) (seed : nat) (m : gmap string A),
    range_map seed m ≡ₚ map_to_list m;
}.

Section TableView.
Context `{Schema} `{GoRuntime}.

(** A Go [interface{}] holding a decoded value; [None] is [nil]. *)
Definition iface : Type := option Value.

(** A callback [func(string, interface{}) error]. [lid] names the closure;
    its calls are recorded in the world ([delivered]). *)
Record Listener : Type := mkListener {
  lid : nat;
  lfun : string → iface → option error;
}.

(** [cancelReader]: handles of the reader and of the context whose
    [cancelFunc] it keeps. *)
Record cancelReader : Type := mkCancelReader {
  reader : nat;
  cancelFunc : nat;
}.

(** What one [reader.Next] gives back: [(msg, err)], either may be nil. *)
Record Fetch : Type := mkFetch {
  fmsg : option Message;
  ferr : option error;
}.

(** Modelled from the spec: the partition reader is a collaborator outside
    table_view_impl.go ("sequential, cancellable reader over one partition").
    A reader as [newReader] returns it: [backlog] is what the successive
    [Next] calls return while [HasNext] is true; it is finite: the compacted
    backlog ends. *)
Record Reader : Type := mkReader {
  rhandle : nat;
  rtopic : string;
  backlog : list Fetch;
}.

(** [TableViewOptions], as far as this file reads it. [Schema] and
    [SchemaValueType] are nilable: [newTableView] tests both, and
    [handleMessage] hands [SchemaValueType] to [reflect.New], which panics on
    a nil type. A type that is not nil is the [Value] of the [Schema] class
    above. *)
Record TableViewOptions : Type := mkTableViewOptions {
  Topic : string;
  SchemaIsNil : bool;
  SchemaValueTypeIsNil : bool;
  AutoUpdatePartitionsInterval : Z;
}.

(** [TableViewImpl]. [data] is a reference into the heap of map objects;
    the mutexes are [true] when held; [closedCh] is [true] once closed. *)
Record TableViewImpl : Type := mkTableViewImpl {
  options : TableViewOptions;
  dataMu : bool;
  data : nat;
  readersMu : bool;
  cancelReaders : gmap string cancelReader;
  listenersMu : bool;
  listeners : list Listener;
  closed : bool;
  closedCh : bool;
}.

(** Everything outside the struct. *)
Record World : Type := mkWorld {
  (* Go heap: the map objects, by reference *)
  mapHeap : nat → gmap string Value;
  nextRef : nat;
  (* runtime *)
  rangeSeed : nat;
  nextHandle : nat;
  (* broker: client.TopicPartitions and newReader *)
  brokerPartitions : string → list string + error;
  brokerBacklog : string → list Fetch + error;
  (* effects, oldest first *)
  opened : list (string * nat);
  closedReaders : list nat;
  cancelled : list nat;
  spawned : list (nat * nat);
  delivered : list (nat * string * iface);
  logged : list LogEntry;
}.

Record State : Type := mkState {
  tv : TableViewImpl;
  world : World;
}.

(** *** Field updates *)

Definition set_dataMu (b : bool) (s : State) : State :=
  let t := tv s in
  mkState (mkTableViewImpl (options t) b (data t) (readersMu t) (cancelReaders t)
             (listenersMu t) (listeners t) (closed t) (closedCh t)) (world s).

Definition set_readersMu (b : bool) (s : State) : State :=
  let t := tv s in
  mkState (mkTableViewImpl (options t) (dataMu t) (data t) b (cancelReaders t)
             (listenersMu t) (listeners t) (closed t) (closedCh t)) (world s).

Definition set_listenersMu (b : bool) (s : State) : State :=
  let t := tv s in
  mkState (mkTableViewImpl (options t) (dataMu t) (data t) (readersMu t) (cancelReaders t)
             b (listeners t) (closed t) (closedCh t)) (world s).

Definition set_cancelReaders (m : gmap string cancelReader) (s : State) : State :=
  let t := tv s in
  mkState (mkTableViewImpl (options t) (dataMu t) (data t) (readersMu t) m
             (listenersMu t) (listeners t) (closed t) (closedCh t)) (world s).

Definition set_listeners (l : list Listener) (s : State) : State :=
  let t := tv s in
  mkState (mkTableViewImpl (options t) (dataMu t) (data t) (readersMu t) (cancelReaders t)
             (listenersMu t) l (closed t) (closedCh t)) (world s).

Definition set_closed (b : bool) (s : State) : State :=
  let t := tv s in
  mkState (mkTableViewImpl (options t) (dataMu t) (data t) (readersMu t) (cancelReaders t)
             (listenersMu t) (listeners t) b (closedCh t)) (world s).

Definition set_closedCh (b : bool) (s : State) : State :=
  let t := tv s in
  mkState (mkTableViewImpl (options t) (dataMu t) (data t) (readersMu t) (cancelReaders t)
             (listenersMu t) (listeners t) (closed t) b) (world s).

Definition set_heap (h : nat → gmap string Value) (n : nat) (s : State) : State :=
  let w := world s in
  mkState (tv s)
    (mkWorld h n (rangeSeed w) (nextHandle w) (brokerPartitions w) (brokerBacklog w)
       (opened w) (closedReaders w) (cancelled w) (spawned w) (delivered w) (logged w)).

Definition set_rangeSeed (n : nat) (s : State) : State :=
  let w := world s in
  mkState (tv s)
    (mkWorld (mapHeap w) (nextRef w) n (nextHandle w) (brokerPartitions w) (brokerBacklog w)
       (opened w) (closedReaders w) (cancelled w) (spawned w) (delivered w) (logged w)).

Definition set_nextHandle (n : nat) (s : State) : State :=
  let w := world s in
  mkState (tv s)
    (mkWorld (mapHeap w) (nextRef w) (rangeSeed w) n (brokerPartitions w) (brokerBacklog w)
       (opened w) (closedReaders w) (cancelled w) (spawned w) (delivered w) (logged w)).

Definition set_opened (l : list (string * nat)) (s : State) : State :=
  let w := world s in
  mkState (tv s)
    (mkWorld (mapHeap w) (nextRef w) (rangeSeed w) (nextHandle w) (brokerPartitions w)
       (brokerBacklog w) l (closedReaders w) (cancelled w) (spawned w) (delivered w) (logged w)).

Definition set_closedReaders (l : list nat) (s : State) : State :=
  let w := world s in
  mkState (tv s)
    (mkWorld (mapHeap w) (nextRef w) (rangeSeed w) (nextHandle w) (brokerPartitions w)
       (brokerBacklog w) (opened w) l (cancelled w) (spawned w) (delivered w) (logged w)).

Definition set_cancelled (l : list nat) (s : State) : State :=
  let w := world s in
  mkState (tv s)
    (mkWorld (mapHeap w) (nextRef w) (rangeSeed w) (nextHandle w) (brokerPartitions w)
       (brokerBacklog w) (opened w) (closedReaders w) l (spawned w) (delivered w) (logged w)).

Definition set_spawned (l : list (nat * nat)) (s : State) : State :=
  let w := world s in
  mkState (tv s)
    (mkWorld (mapHeap w) (nextRef w) (rangeSeed w) (nextHandle w) (brokerPartitions w)
       (brokerBacklog w) (opened w) (closedReaders w) (cancelled w) l (delivered w) (logged w)).

Definition set_delivered (l : list (nat * string * iface)) (s : State) : State :=
  let w := world s in
  mkState (tv s)
    (mkWorld (mapHeap w) (nextRef w) (rangeSeed w) (nextHandle w) (brokerPartitions w)
       (brokerBacklog w) (opened w) (closedReaders w) (cancelled w) (spawned w) l (logged w)).

Definition set_logged (l : list LogEntry) (s : State) : State :=
  let w := world s in
  mkState (tv s)
    (mkWorld (mapHeap w) (nextRef w) (rangeSeed w) (nextHandle w) (brokerPartitions w)
       (brokerBacklog w) (opened w) (closedReaders w) (cancelled w) (spawned w) (delivered w) l).

(** The map object [tv.data] refers to. *)
Definition tv_data (s : State) : gmap string Value :=
  mapHeap (world s) (data (tv s)).

(** ** Programs *)

(** A program is a tree of atomic actions. An action that returns [None] is
    not enabled in that state: the goroutine waits (only [Lock] does so).
    [Panic] is a Go panic; nothing in table_view_impl.go recovers one. *)
Inductive Prog (A : Type) : Type :=
| Ret (a : A)
| Act {B : Type} (f : State → option (B * State)) (k : B → Prog A)
| Panic.
Arguments Ret {A} a.
Arguments Act {A B} f k.
Arguments Panic {A}.

Fixpoint bind {A B : Type} (p : Prog A) (g : A → Prog B) : Prog B :=
  match p with
  | Ret a => g a
  | Act f k => Act f (λ b, bind (k b) g)
  | Panic => Panic
  end.

(** The result of running one goroutine alone. [Panicked s]: it panicked in
    state [s]; what the deferred calls do while the panic unwinds the stack
    is not applied to [s]. *)
Inductive Outcome (A : Type) : Type :=
| Done (a : A) (s : State)
| Blocked (s : State)
| Panicked (s : State).
Arguments Done {A} a s.
Arguments Blocked {A} s.
Arguments Panicked {A} s.

(** Sequential execution: nothing else runs, so a goroutine that waits for a
    mutex waits for ever. *)
Fixpoint run {A : Type} (p : Prog A) (s : State) : Outcome A :=
  match p with
  | Ret a => Done a s
  | Act f k =>
      match f s with
      | Some (b, s') => run (k b) s'
      | None => Blocked s
      end
  | Panic => Panicked s
  end.

(** One step of a goroutine, if it is enabled. *)
Definition step {A : Type} (p : Prog A) (s : State) : Prog A * State :=
  match p with
  | Ret a => (p, s)
  | Act f k =>
      match f s with
      | Some (b, s') => (k b, s')
      | None => (p, s)
      end
  | Panic => (p, s)
  end.

Definition panicked {A : Type} (p : Prog A) : bool :=
  match p with
  | Panic => true
  | _ => false
  end.

(** Two goroutines under a schedule: [true] lets the first one take a step,
    [false] the second. A panic in either ends the program: no further step
    is taken. *)
Fixpoint interleave {A B : Type} (sched : list bool) (p : Prog A) (q : Prog B)
    (s : State) : Prog A * Prog B * State :=
  match sched with
  | [] => (p, q, s)
  | b :: sched' =>
      if panicked p || panicked q then (p, q, s)
      else if b then let '(p', s') := step p s in interleave sched' p' q s'
      else let '(q', s') := step q s in interleave sched' p q' s'
  end.

Notation "'let*' x ':=' p 'in' k" := (bind p (λ x, k))
  (at level 10, x pattern, p at level 100, k at level 200).
Notation "p '>>' k" := (bind p (λ _, k))
  (at level 100, k at level 200, right associativity).

(** An action that is always enabled. *)
Definition act {B : Type} (f : State → B * State) : Prog B :=
  Act (λ s, Some (f s)) Ret.

(** [for _, x := range l { body }] *)
Fixpoint for_each {A : Type} (l : list A) (body : A → Prog unit) : Prog unit :=
  match l with
  | [] => Ret tt
  | x :: l' => body x >> for_each l' body
  end.

(** The same loop when the body may [return err]. *)
Fixpoint for_each_err {A : Type} (l : list A) (body : A → Prog (option error))
    : Prog (option error) :=
  match l with
  | [] => Ret None
  | x :: l' =>
      let* e := body x in
      match e with
      | Some err => Ret (Some err)
      | None => for_each_err l' body
      end
  end.

(** *** Primitive operations *)

(** [sync.Mutex]: [Lock] waits while the mutex is held, whoever holds it
    (Go mutexes are not reentrant). Every [Unlock] of the source is deferred
    right after its [Lock]. *)
Record Mutex : Type := mkMutex {
  held : State → bool;
  set_held : bool → State → State;
}.
Definition dataMutex : Mutex := mkMutex (λ s, dataMu (tv s)) set_dataMu.
Definition readersMutex : Mutex := mkMutex (λ s, readersMu (tv s)) set_readersMu.
Definition listenersMutex : Mutex := mkMutex (λ s, listenersMu (tv s)) set_listenersMu.

Definition Lock (m : Mutex) : Prog unit :=
  Act (λ s, if held m s then None else Some (tt, set_held m true s)) Ret.
Definition Unlock (m : Mutex) : Prog unit :=
  act (λ s, (tt, set_held m false s)).

(** [range m]: the entries in the order the runtime picks this time. *)
Definition range {A : Type} (m : State → gmap string A) : Prog (list (string * A)) :=
  act (λ s, (range_map (rangeSeed (world s)) (m s),
             set_rangeSeed (S (rangeSeed (world s))) s)).

(** [make(map[string]interface{}, n)]: a fresh, empty map object. *)
Definition make_map : Prog nat :=
  act (λ s, let r := nextRef (world s) in
            (r, set_heap (<[r := ∅]> (mapHeap (world s))) (S r) s)).

(** [m[k] = v] and [delete(m, k)] on the map object behind reference [r]. *)
Definition map_store (r : nat) (k : string) (v : Value) : Prog unit :=
  act (λ s, let h := mapHeap (world s) in
            (tt, set_heap (<[r := <[k := v]> (h r)]> h) (nextRef (world s)) s)).
Definition map_delete (r : nat) (k : string) : Prog unit :=
  act (λ s, let h := mapHeap (world s) in
            (tt, set_heap (<[r := delete k (h r)]> h) (nextRef (world s)) s)).

(** A read of the field [tv.data]: the reference, not the contents. *)
Definition read_data : Prog nat := act (λ s, (data (tv s), s)).

Definition Errorf_log (e : LogEntry) : Prog unit :=
  act (λ s, (tt, set_logged (logged (world s) ++ [e]) s)).

(** Calling a callback: the call is recorded, its error handed back. *)
Definition call (l : Listener) (k : string) (v : iface) : Prog (option error) :=
  act (λ s, (lfun l k v, set_delivered (delivered (world s) ++ [(lid l, k, v)]) s)).

(** [reader.Close()] and a [cancelFunc()], on handles. *)
Definition reader_Close (r : nat) : Prog unit :=
  act (λ s, (tt, set_closedReaders (closedReaders (world s) ++ [r]) s)).
Definition call_cancelFunc (c : nat) : Prog unit :=
  act (λ s, (tt, set_cancelled (cancelled (world s) ++ [c]) s)).

(** [newReader(tv.client, ReaderOptions{Topic: partition, ...})] *)
Definition newReader (partition : string) : Prog (Reader + error) :=
  act (λ s, match brokerBacklog (world s) partition with
            | inr err => (inr err, s)
            | inl fs =>
                let h := nextHandle (world s) in
                (inl (mkReader h partition fs),
                 set_opened (opened (world s) ++ [(partition, h)]) (set_nextHandle (S h) s))
            end).

(** [context.WithCancel(context.Background())]: the handle of the context. *)
Definition WithCancel : Prog nat :=
  act (λ s, let h := nextHandle (world s) in (h, set_nextHandle (S h) s)).

(** [go tv.watchReaderForNewMessages(ctx, reader)] *)
Definition go_watchReaderForNewMessages (ctx r : nat) : Prog unit :=
  act (λ s, (tt, set_spawned (spawned (world s) ++ [(ctx, r)]) s)).

(** [reflect.New(tv.options.SchemaValueType)]: a fresh target holding the
    zero value of the type; a panic when the type is nil. *)
Definition reflect_New : Prog Value :=
  let* isNil := act (λ s, (SchemaValueTypeIsNil (options (tv s)), s)) in
  if isNil then Panic else Ret zeroValue.

(** [msg.GetSchemaValue(target)]: what the target holds afterwards, and the
    error. *)
Definition GetSchemaValue (msg : Message) (target : Value) : Value * option error :=
  match decode (Payload msg) with
  | inl v => (v, None)
  | inr err => (target, Some err)
  end.

(** ** The methods of table_view_impl.go *)

Definition handleMessage (msg : Message) : Prog unit :=
  Lock dataMutex >>
  let* fresh := reflect_New in
  let* payload :=
    (if bool_decide (length (Payload msg) = 0) then
       let* d := read_data in
       map_delete d (Key msg) >>
       Ret fresh
     else
       let '(payload, err) := GetSchemaValue msg fresh in
       match err with
       | Some e => Errorf_log (LogGetSchemaValueFailed e msg)
       | None => Ret tt
       end >>
       let* d := read_data in
       map_store d (Key msg) payload >>
       Ret payload) in
  let* ls := act (λ s, (listeners (tv s), s)) in
  for_each ls (λ listener,
    let* err := call listener (Key msg) (Some payload) in
    match err with
    | Some e => Errorf_log (LogListenerFailed msg e)
    | None => Ret tt
    end) >>
  Unlock dataMutex.

Definition Size : Prog nat :=
  Lock dataMutex >>
  let* n := act (λ s, (size (tv_data s), s)) in
  Unlock dataMutex >>
  Ret n.

Definition IsEmpty : Prog bool :=
  Lock dataMutex >>
  let* n := Size in
  Unlock dataMutex >>
  Ret (bool_decide (n = 0)).

Definition ContainsKey (key : string) : Prog bool :=
  Lock dataMutex >>
  let* ok := act (λ s, (bool_decide (is_Some (tv_data s !! key)), s)) in
  Unlock dataMutex >>
  Ret ok.

Definition Get (key : string) : Prog iface :=
  Lock dataMutex >>
  let* v := act (λ s, (tv_data s !! key, s)) in
  Unlock dataMutex >>
  Ret v.

(** [Entries] returns a map, that is a reference to a map object. *)
Definition Entries : Prog nat :=
  Lock dataMutex >>
  let* data := make_map in
  let* kvs := range tv_data in
  for_each kvs (λ '(k, v), map_store data k v) >>
  let* r := read_data in
  Unlock dataMutex >>
  Ret r.

Definition Keys : Prog (list string) :=
  Lock dataMutex >>
  let* kvs := range tv_data in
  Unlock dataMutex >>
  Ret (kvs.*1).

Definition ForEach (action : Listener) : Prog (option error) :=
  Lock dataMutex >>
  let* kvs := range tv_data in
  let* err := for_each_err kvs (λ '(k, v), call action k (Some v)) in
  Unlock dataMutex >>
  Ret err.

Definition ForEachAndListen (action : Listener) : Prog (option error) :=
  Lock listenersMutex >>
  let* err := ForEach action in
  match err with
  | Some e => Unlock listenersMutex >> Ret (Some e)
  | None =>
      act (λ s, (tt, set_listeners (listeners (tv s) ++ [action]) s)) >>
      Unlock listenersMutex >>
      Ret None
  end.

Definition Close : Prog unit :=
  Lock readersMutex >>
  let* c := act (λ s, (closed (tv s), s)) in
  (if negb c then
     act (λ s, (tt, set_closed true s)) >>
     let* crs := range (λ s, cancelReaders (tv s)) in
     for_each crs (λ '(_, cr), reader_Close (reader cr)) >>
     act (λ s, (tt, set_closedCh true s))
   else Ret tt) >>
  Unlock readersMutex.

(** The synchronous drain, [for reader.HasNext() { ... }]: one round per
    element of the reader's backlog. *)
Fixpoint drain (partition : string) (fs : list Fetch) : Prog unit :=
  match fs with
  | [] => Ret tt
  | f :: fs' =>
      let* r := act (λ s, (f, s)) in
      match ferr r with
      | Some err => Errorf_log (LogReadNextFailed partition err)
      | None => Ret tt
      end >>
      match fmsg r with
      | Some msg => handleMessage msg
      | None => Ret tt
      end >>
      drain partition fs'
  end.

(** [partitions[partition] = true] for every element of the array. *)
Definition partition_set (partitionsArray : list string) : gmap string bool :=
  foldl (λ m partition, <[partition := true]> m) ∅ partitionsArray.

Definition partitionUpdateCheck : Prog (option error) :=
  let* called :=
    act (λ s, let topic := Topic (options (tv s)) in
              ((topic, brokerPartitions (world s) topic), s)) in
  let '(topic, res) := called in
  match res with
  | inr err => Ret (Some (Errorf "tv.client.TopicPartitions(%s) failed: %w" topic err))
  | inl partitionsArray =>
      let partitions := partition_set partitionsArray in
      Lock readersMutex >>
      let* crs := range (λ s, cancelReaders (tv s)) in
      for_each crs (λ '(partition, cr),
        match partitions !! partition with
        | None =>
            call_cancelFunc (cancelFunc cr) >>
            reader_Close (reader cr) >>
            act (λ s, (tt, set_cancelReaders (delete partition (cancelReaders (tv s))) s))
        | Some _ => Ret tt
        end) >>
      let* ps := range (λ _, partitions) in
      let* err := for_each_err ps (λ '(partition, _),
        let* known := act (λ s, (cancelReaders (tv s) !! partition, s)) in
        match known with
        | Some _ => Ret None
        | None =>
            let* res := newReader partition in
            match res with
            | inr err =>
                Ret (Some (Errorf "create new reader failed for %s: %w" partition err))
            | inl rd =>
                drain partition (backlog rd) >>
                let* ctx := WithCancel in
                act (λ s, (tt, set_cancelReaders
                                 (<[partition := mkCancelReader (rhandle rd) ctx]>
                                    (cancelReaders (tv s))) s)) >>
                go_watchReaderForNewMessages ctx (rhandle rd) >>
                Ret None
            end
        end) in
      Unlock readersMutex >>
      Ret err
  end.

(** [periodicPartitionUpdateCheck] loops until [closedCh] is closed; [rounds]
    bounds the number of rounds looked at. The result says whether the loop
    has returned. *)
Fixpoint periodicPartitionUpdateCheck (rounds : nat) : Prog bool :=
  match rounds with
  | 0 => Ret false
  | S rounds' =>
      let* err := partitionUpdateCheck in
      match err with
      | Some e => Errorf_log (LogPartitionCheckFailed e)
      | None => Ret tt
      end >>
      let* stop := act (λ s, (closedCh (tv s), s)) in
      if stop then Ret true else periodicPartitionUpdateCheck rounds'
  end.

(** The test that ends [watchReaderForNewMessages]; [err] may be nil. *)
Definition reader_is_done (err : option error) : bool :=
  match err with
  | None => false
  | Some e =>
      match errors_As e with
      | Some (result, _) => bool_decide (result = "ConsumerClosed")
      | None => false
      end || errors_Is_Canceled e
  end.

(** [watchReaderForNewMessages(ctx, reader)]: [fetches] is what the
    successive [reader.Next(ctx)] return. The result says whether the loop has
    returned; when [fetches] is used up it waits in [reader.Next]. *)
Fixpoint watchReaderForNewMessages (topic : string) (fetches : list Fetch) : Prog bool :=
  match fetches with
  | [] => Ret false
  | f :: fetches' =>
      let* r := act (λ s, (f, s)) in
      match ferr r with
      | Some err => Errorf_log (LogReadNextFailed topic err)
      | None => Ret tt
      end >>
      if reader_is_done (ferr r) then Ret true
      else
        match fmsg r with
        | Some msg => handleMessage msg
        | None => Ret tt
        end >>
        watchReaderForNewMessages topic fetches'
  end.

(** The struct literal of [newTableView]: fresh maps, free mutexes, an open
    [closedCh]. *)
Definition fresh_view (opts : TableViewOptions) (w : World) : State :=
  let r := nextRef w in
  mkState
    (mkTableViewImpl opts false r false ∅ false [] false false)
    (mkWorld (<[r := ∅]> (mapHeap w)) (S r) (rangeSeed w) (nextHandle w)
       (brokerPartitions w) (brokerBacklog w) (opened w) (closedReaders w)
       (cancelled w) (spawned w) (delivered w) (logged w)).

(** What a call of [newTableView] comes to: it returns the view or an error,
    or it does not return: the first round of [partitionUpdateCheck] waits, or
    panics. *)
Inductive Construction : Type :=
| Returns (r : State + error)
| Waits
| Panics.

(** [newTableView]. The periodic check it starts before it returns the view
    is [periodicPartitionUpdateCheck]. *)
Definition newTableView (opts : TableViewOptions) (w : World) : Construction :=
  if bool_decide (Topic opts = "") then
    Returns (inr (newError "TopicNotFound" "topic is required"))
  else if negb (SchemaIsNil opts) && SchemaValueTypeIsNil opts then
    Returns (inr (newError "InvalidConfiguration"
                    "SchemaValueType is required when Schema is present"))
  else
    let opts' :=
      if bool_decide (AutoUpdatePartitionsInterval opts = 0%Z)
      then mkTableViewOptions (Topic opts) (SchemaIsNil opts) (SchemaValueTypeIsNil opts)
             60000000000%Z
      else opts in
    match run partitionUpdateCheck (fresh_view opts' w) with
    | Done None s => Returns (inl s)
    | Done (Some err) _ => Returns (inr err)
    | Blocked _ => Waits
    | Panicked _ => Panics
    end.

(** ** The states the methods leave, and the relations used to reason
    about them *)

(** A left fold that stops at the first error: what a loop whose body may
    [return err] computes. *)
Fixpoint foldl_err {A : Type} (f : A → State → option error * State) (l : list A)
    (s : State) : option error * State :=
  match l with
  | [] => (None, s)
  | x :: l' =>
      match f x s with
      | (Some err, s') => (Some err, s')
      | (None, s') => foldl_err f l' s'
      end
  end.

(** [len(msg.Payload()) == 0] *)
Definition tombstone (m : Message) : bool := bool_decide (length (Payload m) = 0).

(** What [reflect.Indirect(payload).Interface()] holds at the listener loop. *)
Definition target (m : Message) : Value :=
  if tombstone m then zeroValue else (GetSchemaValue m zeroValue).1.

(** The effect of one record on the map object. *)
Definition apply_record (m : Message) (mp : gmap string Value) : gmap string Value :=
  if tombstone m then delete (Key m) mp
  else <[Key m := (GetSchemaValue m zeroValue).1]> mp.

(** What [handleMessage] logs before the listener loop. *)
Definition decode_log (m : Message) : list LogEntry :=
  if tombstone m then []
  else match (GetSchemaValue m zeroValue).2 with
       | Some e => [LogGetSchemaValueFailed e m]
       | None => []
       end.

(** The calls and the log lines of the listener loop. *)
Definition notify_delivered (m : Message) (v : Value) (ls : list Listener)
    : list (nat * string * iface) :=
  (λ l, (lid l, Key m, Some v)) <$> ls.

Definition notify_logged (m : Message) (v : Value) (ls : list Listener) : list LogEntry :=
  omap (λ l, LogListenerFailed m <$> lfun l (Key m) (Some v)) ls.

(** One round of the listener loop. *)
Definition notify_step (m : Message) (v : Value) (l : Listener) (s : State) : State :=
  let s1 := set_delivered (delivered (world s) ++ [(lid l, Key m, Some v)]) s in
  match lfun l (Key m) (Some v) with
  | Some e => set_logged (logged (world s1) ++ [LogListenerFailed m e]) s1
  | None => s1
  end.

(** The state [handleMessage] leaves, when it finds [dataMu] free and
    [reflect.New] does not panic. *)
Definition handleMessage_state (m : Message) (s : State) : State :=
  set_logged
    (logged (world s) ++ decode_log m ++ notify_logged m (target m) (listeners (tv s)))
    (set_delivered
       (delivered (world s) ++ notify_delivered m (target m) (listeners (tv s)))
       (set_heap (<[data (tv s) := apply_record m (tv_data s)]> (mapHeap (world s)))
          (nextRef (world s)) s)).

(** Records applied one after the other. *)
Definition handleMessages (ms : list Message) : Prog unit := for_each ms handleMessage.

(** What a reader returns when it delivers the records [ms] without error. *)
Definition fetched (ms : list Message) : list Fetch := (λ m, mkFetch (Some m) None) <$> ms.

(** One round of the copy loop of [Entries], on the fresh map object [r]. *)
Definition copy_step (r : nat) (kv : string * Value) (s : State) : State :=
  set_heap (<[r := <[kv.1 := kv.2]> (mapHeap (world s) r)]> (mapHeap (world s)))
    (nextRef (world s)) s.

(** The state [Close] leaves, when it finds [readersMu] free. *)
Definition Close_state (s : State) : State :=
  if closed (tv s) then s
  else
    let seed := rangeSeed (world s) in
    let crs := range_map seed (cancelReaders (tv s)) in
    set_closedCh true
      (set_closedReaders (closedReaders (world s) ++ ((λ kv, reader kv.2) <$> crs))
         (set_rangeSeed (S seed) (set_closed true s))).

(** One round of the first loop of [partitionUpdateCheck]. *)
Definition loop1_step (partitions : gmap string bool) (kv : string * cancelReader)
    (s : State) : State :=
  match partitions !! kv.1 with
  | None =>
      set_cancelReaders (delete kv.1 (cancelReaders (tv s)))
        (set_closedReaders (closedReaders (world s) ++ [reader kv.2])
           (set_cancelled (cancelled (world s) ++ [cancelFunc kv.2]) s))
  | Some _ => s
  end.

(** The entries the first loop removes, in the order it meets them. *)
Definition stale (partitions : gmap string bool) (crs : list (string * cancelReader))
    : list (string * cancelReader) :=
  filter (λ kv, partitions !! kv.1 = None) crs.

(** One round of the drain, and the whole drain. *)
Definition drain_step (partition : string) (f : Fetch) (s : State) : State :=
  let s1 := match ferr f with
            | Some err => set_logged (logged (world s) ++ [LogReadNextFailed partition err]) s
            | None => s
            end in
  match fmsg f with
  | Some msg => handleMessage_state msg s1
  | None => s1
  end.

Definition drain_state (partition : string) (fs : list Fetch) (s : State) : State :=
  foldl (λ s' f, drain_step partition f s') s fs.

(** A new partition whose reader opens: open, drain, register, spawn. *)
Definition open_state (partition : string) (fs : list Fetch) (s : State) : State :=
  let h := nextHandle (world s) in
  let s1 := set_opened (opened (world s) ++ [(partition, h)]) (set_nextHandle (S h) s) in
  let s2 := drain_state partition fs s1 in
  let ctx := nextHandle (world s2) in
  set_spawned (spawned (world s2) ++ [(ctx, h)])
    (set_cancelReaders (<[partition := mkCancelReader h ctx]> (cancelReaders (tv s2)))
       (set_nextHandle (S ctx) s2)).

(** One round of the second loop of [partitionUpdateCheck]. *)
Definition loop2_step (kv : string * bool) (s : State) : option error * State :=
  match cancelReaders (tv s) !! kv.1 with
  | Some _ => (None, s)
  | None =>
      match brokerBacklog (world s) kv.1 with
      | inr err => (Some (Errorf "create new reader failed for %s: %w" kv.1 err), s)
      | inl fs => (None, open_state kv.1 fs s)
      end
  end.

(** The result of [partitionUpdateCheck] and the state it leaves, when it
    finds the mutexes free and no [handleMessage] of the drain panics. *)
Definition partitionUpdateCheck_state (s : State) : option error * State :=
  match brokerPartitions (world s) (Topic (options (tv s))) with
  | inr err =>
      (Some (Errorf "tv.client.TopicPartitions(%s) failed: %w" (Topic (options (tv s))) err), s)
  | inl partitionsArray =>
      let partitions := partition_set partitionsArray in
      let seed := rangeSeed (world s) in
      let crs := range_map seed (cancelReaders (tv s)) in
      let s3 := foldl (λ s' kv, loop1_step partitions kv s')
                  (set_rangeSeed (S seed) (set_readersMu true s)) crs in
      let ps := range_map (S seed) partitions in
      let r := foldl_err loop2_step ps (set_rangeSeed (S (S seed)) s3) in
      (r.1, set_readersMu false r.2)
  end.

(** [quiet s s']: from [s] to [s'] only the map object behind [tv.data], the
    listener calls and the log changed. This is all [handleMessage] does. *)
Record quiet (s s' : State) : Prop := mkQuiet {
  q_tv : tv s' = tv s;
  q_heap : ∀ r, r ≠ data (tv s) → mapHeap (world s') r = mapHeap (world s) r;
  q_nextRef : nextRef (world s') = nextRef (world s);
  q_rangeSeed : rangeSeed (world s') = rangeSeed (world s);
  q_nextHandle : nextHandle (world s') = nextHandle (world s);
  q_brokerPartitions : brokerPartitions (world s') = brokerPartitions (world s);
  q_brokerBacklog : brokerBacklog (world s') = brokerBacklog (world s);
  q_opened : opened (world s') = opened (world s);
  q_closedReaders : closedReaders (world s') = closedReaders (world s);
  q_cancelled : cancelled (world s') = cancelled (world s);
  q_spawned : spawned (world s') = spawned (world s);
}.

(** [frame s s']: what the second loop of [partitionUpdateCheck] leaves
    alone. It may register readers, take handles and apply records. *)
Record frame (s s' : State) : Prop := mkFrame {
  fr_options : options (tv s') = options (tv s);
  fr_dataMu : dataMu (tv s') = dataMu (tv s);
  fr_data : data (tv s') = data (tv s);
  fr_readersMu : readersMu (tv s') = readersMu (tv s);
  fr_listenersMu : listenersMu (tv s') = listenersMu (tv s);
  fr_listeners : listeners (tv s') = listeners (tv s);
  fr_closed : closed (tv s') = closed (tv s);
  fr_closedCh : closedCh (tv s') = closedCh (tv s);
  fr_heap : ∀ r, r ≠ data (tv s) → mapHeap (world s') r = mapHeap (world s) r;
  fr_nextRef : nextRef (world s') = nextRef (world s);
  fr_rangeSeed : rangeSeed (world s') = rangeSeed (world s);
  fr_brokerPartitions : brokerPartitions (world s') = brokerPartitions (world s);
  fr_brokerBacklog : brokerBacklog (world s') = brokerBacklog (world s);
  fr_closedReaders : closedReaders (world s') = closedReaders (world s);
  fr_cancelled : cancelled (world s') = cancelled (world s);
}.

(** The records a backlog carries, in order. *)
Definition backlog_messages (fs : list Fetch) : list Message := omap fmsg fs.

(** The second loop as a relation: [loop2 l s r s'] when the loop over [l]
    started in [s] ends in [s'] with result [r]. *)
Inductive loop2 : list (string * bool) → State → option error → State → Prop :=
| loop2_nil (s : State) : loop2 [] s None s
| loop2_known (kv : string * bool) (l : list (string * bool)) (s : State)
    (cr : cancelReader) (r : option error) (s' : State) :
    cancelReaders (tv s) !! kv.1 = Some cr →
    loop2 l s r s' →
    loop2 (kv :: l) s r s'
| loop2_fail (kv : string * bool) (l : list (string * bool)) (s : State) (e : error) :
    cancelReaders (tv s) !! kv.1 = None →
    brokerBacklog (world s) kv.1 = inr e →
    loop2 (kv :: l) s (Some (Errorf "create new reader failed for %s: %w" kv.1 e)) s
| loop2_open (kv : string * bool) (l : list (string * bool)) (s : State)
    (fs : list Fetch) (r : option error) (s' : State) :
    cancelReaders (tv s) !! kv.1 = None →
    brokerBacklog (world s) kv.1 = inl fs →
    loop2 l (open_state kv.1 fs s) r s' →
    loop2 (kv :: l) s r s'.

(** The state between the two loops: the readers of the partitions that are
    gone have been cancelled, closed and removed. *)
Definition after_removal (partitionsArray : list string) (s : State) : State :=
  let partitions := partition_set partitionsArray in
  let seed := rangeSeed (world s) in
  let gone := stale partitions (range_map seed (cancelReaders (tv s))) in
  set_rangeSeed (S (S seed))
    (set_cancelReaders (foldl (λ m kv, delete kv.1 m) (cancelReaders (tv s)) gone)
       (set_closedReaders (closedReaders (world s) ++ ((λ kv, reader kv.2) <$> gone))
          (set_cancelled (cancelled (world s) ++ ((λ kv, cancelFunc kv.2) <$> gone))
             (set_readersMu true s)))).

(** One call of the callback by [ForEach]. *)
Definition snapshot_step (action : Listener) (kv : string * Value) (s : State)
    : option error * State :=
  (lfun action kv.1 (Some kv.2),
   set_delivered (delivered (world s) ++ [(lid action, kv.1, Some kv.2)]) s).

(** ** Notions used to state further properties of the methods *)

(** What the last record of [ms] for key [k] leaves under [k]: nothing after
    a tombstone, the target of [GetSchemaValue] otherwise; [before] when [ms]
    has no record for [k]. *)
Definition after_records (k : string) (ms : list Message) (before : iface) : iface :=
  match last (filter (λ m, Key m = k) ms) with
  | None => before
  | Some m => if tombstone m then None else Some (GetSchemaValue m zeroValue).1
  end.

(** The number of entries after one record. *)
Definition size_after (m : Message) (mp : gmap string Value) : nat :=
  match mp !! Key m with
  | Some _ => if tombstone m then pred (size mp) else size mp
  | None => if tombstone m then size mp else S (size mp)
  end.

(** The calls of [action] on the entries [kvs], in order. *)
Definition calls (action : Listener) (kvs : list (string * Value))
    : list (nat * string * iface) :=
  (λ kv, (lid action, kv.1, Some kv.2)) <$> kvs.

(** [view_kept s s']: what [partitionUpdateCheck] leaves of the view when it
    returns: it holds no mutex it did not find held, and it touches neither
    the listeners nor the closed flags, the broker or the map objects other
    than [tv.data]. *)
Record view_kept (s s' : State) : Prop := mkViewKept {
  vk_options : options (tv s') = options (tv s);
  vk_dataMu : dataMu (tv s') = dataMu (tv s);
  vk_data : data (tv s') = data (tv s);
  vk_readersMu : readersMu (tv s') = false;
  vk_listenersMu : listenersMu (tv s') = listenersMu (tv s);
  vk_listeners : listeners (tv s') = listeners (tv s);
  vk_closed : closed (tv s') = closed (tv s);
  vk_closedCh : closedCh (tv s') = closedCh (tv s);
  vk_heap : ∀ r, r ≠ data (tv s) → mapHeap (world s') r = mapHeap (world s) r;
  vk_nextRef : nextRef (world s') = nextRef (world s);
  vk_brokerPartitions : brokerPartitions (world s') = brokerPartitions (world s);
  vk_brokerBacklog : brokerBacklog (world s') = brokerBacklog (world s);
}.

End TableView.

Notation "'let*' x ':=' p 'in' k" := (bind p (λ x, k))
  (at level 10, x pattern, p at level 100, k at level 200).
Notation "p '>>' k" := (bind p (λ _, k))
  (at level 100, k at level 200, right associativity).

Arguments Done {_ _} _ _.
Arguments Blocked {_ _} _.
Arguments Panicked {_ _} _.
Arguments Ret {_ _} _.
Arguments Act {_ _ _} _ _.
Arguments Panic {_ _}.

(** The state a run ends in. *)
Definition state_of `{Schema} {A : Type} (o : Outcome A) : State :=
  match o with
  | Done _ s => s
  | Blocked s => s
  | Panicked s => s
  end.

(** * A concrete schema, runtime and broker *)

(** An 8-bit integer schema: the payload is one byte. *)
#[export] Instance Int8Schema : Schema := {|
  Value := Z;
  zeroValue := 0%Z;
  decode p := match p with
              | [b] => inl (Z.of_N (Byte.to_N b))
              | _ => inr (ExternalError "int8: the payload is not one byte")
              end;
|}.

(** A runtime whose iteration order changes every second loop: the order of
    [map_to_list], then its reverse. *)
Definition sample_range {A : Type} (seed : nat) (m : gmap string A) : list (string * A) :=
  if Nat.even (seed / 2) then map_to_list m else reverse (map_to_list m).

#[export] Instance SampleRuntime : GoRuntime := {|
  range_map := @sample_range;
  range_map_perm := λ A seed m,
    match Nat.even (seed / 2) as b
      return (if b then map_to_list m else reverse (map_to_list m)) ≡ₚ map_to_list m
    with
    | true => Permutation_refl (map_to_list m)
    | false => reverse_Permutation (map_to_list m)
    end;
|}.

Definition x5 : Message := mkMessage "x" ["005"%byte].
Definition x7 : Message := mkMessage "x" ["007"%byte].
Definition y9 : Message := mkMessage "y" ["009"%byte].
Definition x_deleted : Message := mkMessage "x" [].
Definition x_garbled : Message := mkMessage "x" ["001"%byte; "002"%byte].

(** A topic "t" with two partitions: "t-0" holds [x5], "t-1" holds [y9]. *)
Definition two_partitions : World :=
  mkWorld (λ _, ∅) 0 0 0
    (λ topic, if bool_decide (topic = "t") then inl ["t-0"; "t-1"]
              else inr (ExternalError "topic not found"))
    (λ p, if bool_decide (p = "t-0") then inl [mkFetch (Some x5) None]
          else if bool_decide (p = "t-1") then inl [mkFetch (Some y9) None]
          else inr (ExternalError "partition not found"))
    [] [] [] [] [] [].

Definition options_t : TableViewOptions := mkTableViewOptions "t" false false 0.

(** The view before its first reconcile, and after it. *)
Definition view0 : State := fresh_view options_t two_partitions.
Definition view1 : State := state_of (run partitionUpdateCheck view0).

(** A callback that never fails. *)
Definition action7 : Listener := mkListener 7 (λ _ _, None).

(** [view1] once [action7] listens. *)
Definition view_listening : State := state_of (run (ForEachAndListen action7) view1).

(** [view1] when the broker lists "t-0" only. *)
Definition view_shrunk : State :=
  let w := world view1 in
  mkState (tv view1)
    (mkWorld (mapHeap w) (nextRef w) (rangeSeed w) (nextHandle w)
       (λ _, inl ["t-0"]) (brokerBacklog w)
       (opened w) (closedReaders w) (cancelled w) (spawned w) (delivered w) (logged w)).

(** One partition whose first fetch fails and whose second gives [x5]. *)
Definition flaky_partition : World :=
  mkWorld (λ _, ∅) 0 0 0
    (λ _, inl ["t-0"])
    (λ _, inl [mkFetch None (Some (ExternalError "timeout")); mkFetch (Some x5) None])
    [] [] [] [] [] [].

(** Two partitions; the reader of "t-1" never opens. *)
Definition one_bad_partition : World :=
  mkWorld (λ _, ∅) 0 0 0
    (λ _, inl ["t-0"; "t-1"])
    (λ p, if bool_decide (p = "t-0") then inl [mkFetch (Some x5) None]
          else inr (ExternalError "connection refused"))
    [] [] [] [] [] [].
Definition view_bad : State := fresh_view options_t one_bad_partition.

Definition z3 : Message := mkMessage "z" ["003"%byte].

(** The tailing loop of the reader of "t-0", which receives [z3]. *)
Definition tailing_z3 : Prog bool := watchReaderForNewMessages "t-0" (fetched [z3]).

(** The schedule of the race: [ForEachAndListen] up to the [Unlock] of
    [dataMu] (lock, lock, range, two calls, unlock), then the tailing loop
    through [handleMessage] ([Next], lock, [reflect.New], read, store, read
    listeners, unlock), then the rest of [ForEachAndListen] (append,
    unlock). *)
Definition race_schedule : list bool :=
  replicate 6 true ++ replicate 7 false ++ replicate 2 true.

(** The states of the race: both goroutines under [race_schedule], and the
    same two one after the other. *)
Definition race_end : State :=
  (interleave race_schedule (ForEachAndListen action7) tailing_z3 view1).2.
Definition sequential_end : State :=
  state_of (run (ForEachAndListen action7 >> tailing_z3) view1).

(** The view after [Entries], and after a tombstone for "x" on top. *)
Definition view_entries : State := state_of (run Entries view1).
Definition view_entries_deleted : State :=
  state_of (run (handleMessage x_deleted) view_entries).


Definition view_listening_deleted : State :=
  state_of (run (handleMessage x_deleted) view_listening).

Definition view_closed : State := state_of (run Close view1).

Definition view_bad1 : State := state_of (run partitionUpdateCheck view_bad).
Definition view_bad2 : State := state_of (run partitionUpdateCheck view_bad1).
Definition t1_refused : error :=
  Errorf "create new reader failed for %s: %w" "t-1" (ExternalError "connection refused").

(** A callback that fails on the key "y". *)
Definition action_stops_at_y : Listener :=
  mkListener 8 (λ k _, if bool_decide (k = "y") then Some (ExternalError "stop") else None).

(** A view on a topic the broker does not know. *)
Definition options_u : TableViewOptions := mkTableViewOptions "u" false false 0.
Definition view_unknown : State := fresh_view options_u two_partitions.
Definition u_unknown : error :=
  Errorf "tv.client.TopicPartitions(%s) failed: %w" "u" (ExternalError "topic not found").

(** A fetch that fails with a time-out, and one that returns [x7] together
    with a wrapped [context.Canceled]. *)
Definition fetch_timeout : Fetch := mkFetch None (Some (ExternalError "timeout")).
Definition cancelled_next : error := Errorf "next: %w" "t-0" context_Canceled.
Definition fetch_cancelled : Fetch := mkFetch (Some x7) (Some cancelled_next).


(** Options with neither schema nor value type, which [newTableView]
    accepts, and a view with them. *)
Definition options_untyped : TableViewOptions := mkTableViewOptions "t" true true 0.
Definition view_untyped : State := fresh_view options_untyped two_partitions.

(** * Reasoning about runs *)

Section TableViewFacts.
Context `{Schema} `{GoRuntime}.

Lemma run_bind {A B : Type} (p : Prog A) (g : A → Prog B) (s : State) :
  run (bind p g) s =
  match run p s with
  | Done a s' => run (g a) s'
  | Blocked s' => Blocked s'
  | Panicked s' => Panicked s'
  end.
Proof.
  revert s. induction p as [a|C f k IH|]; intros s; simpl; [done| |done].
  destruct (f s) as [[b s']|]; [apply IH|done].
Qed.

Lemma run_bind_assoc {A B C : Type} (p : Prog A) (g : A → Prog B) (h : B → Prog C)
    (s : State) :
  run (bind (bind p g) h) s = run (bind p (λ a, bind (g a) h)) s.
Proof.
  rewrite !run_bind. destruct (run p s) as [a s'|s'|s']; [|done|done].
  by rewrite run_bind.
Qed.

(** Equality of two states built from the same one by field updates. *)
Ltac state_eq :=
  repeat match goal with
         | s : State |- _ => destruct s as [[] []]
         end;
  simpl in *; subst; rewrite ?app_nil_r, <- ?app_assoc; simpl;
  try reflexivity.

(** A loop whose body always returns, under an invariant [I]. *)
Lemma run_for_each {A B : Type} (I : State → Prop) (f : A → State → State)
    (l : list A) (body : A → Prog unit) (k : Prog B) (s : State) :
  (∀ x s', I s' → run (body x) s' = Done tt (f x s')) →
  (∀ x s', I s' → I (f x s')) →
  I s →
  run (for_each l body >> k) s = run k (foldl (λ s' x, f x s') s l).
Proof.
  intros Hbody Hinv. revert s. induction l as [|x l IH]; intros s Hs; [done|].
  cbn [for_each foldl]. rewrite !run_bind. rewrite <- (IH (f x s)) by eauto.
  rewrite !run_bind, Hbody by done. done.
Qed.

Lemma foldl_invariant {A : Type} (I : State → Prop) (f : A → State → State)
    (l : list A) (s : State) :
  (∀ x s', I s' → I (f x s')) → I s → I (foldl (λ s' x, f x s') s l).
Proof.
  intros Hinv. revert s. induction l as [|x l IH]; intros s Hs; simpl; eauto.
Qed.

Lemma run_for_each_err {A B : Type} (I : State → Prop)
    (f : A → State → option error * State) (l : list A)
    (body : A → Prog (option error)) (k : option error → Prog B) (s : State) :
  (∀ x s', I s' → run (body x) s' = Done (f x s').1 (f x s').2) →
  (∀ x s', I s' → I (f x s').2) →
  I s →
  run (let* e := for_each_err l body in k e) s =
  run (k (foldl_err f l s).1) (foldl_err f l s).2.
Proof.
  intros Hbody Hinv. revert s. induction l as [|x l IH]; intros s Hs; [done|].
  cbn [for_each_err foldl_err]. rewrite !run_bind, Hbody by done.
  specialize (Hinv x s Hs). destruct (f x s) as [[err|] s']; simpl in *; [done|].
  rewrite <- IH by done. by rewrite run_bind.
Qed.

(** The same loop when a round may panic: [P x s'] holds of a round that
    does. *)
Lemma run_for_each_err_cases {A B : Type} (I : State → Prop) (P : A → State → Prop)
    (f : A → State → option error * State) (l : list A)
    (body : A → Prog (option error)) (k : option error → Prog B) (s : State) :
  (∀ x s', x ∈ l → I s' →
     run (body x) s' = Done (f x s').1 (f x s').2 ∨
     (P x s' ∧ ∃ s'', run (body x) s' = Panicked s'')) →
  (∀ x s', x ∈ l → I s' → I (f x s').2) →
  I s →
  run (let* e := for_each_err l body in k e) s =
    run (k (foldl_err f l s).1) (foldl_err f l s).2 ∨
  ∃ x s' s'', x ∈ l ∧ I s' ∧ P x s' ∧
              run (let* e := for_each_err l body in k e) s = Panicked s''.
Proof.
  revert s. induction l as [|x l IH]; intros s Hbody Hinv Hs; [by left|].
  assert (x ∈ x :: l) as Hx by (apply elem_of_cons; by left).
  cbn [for_each_err foldl_err]. rewrite !run_bind.
  destruct (Hbody x s Hx Hs) as [Hd|(HP & s'' & Hp)].
  - rewrite Hd. specialize (Hinv x s Hx Hs) as Hs1.
    destruct (f x s) as [[err|] s1]; simpl in *; [by left|].
    destruct (IH s1) as [Heq|(y & s' & s3 & Hy & HI & HPy & Hrun)]; [| |done| |].
    + intros y s' Hy. apply Hbody, elem_of_cons. by right.
    + intros y s' Hy. apply Hinv, elem_of_cons. by right.
    + left. rewrite <- Heq. by rewrite run_bind.
    + right. exists y, s', s3. split_and!; [apply elem_of_cons; by right|done|done|].
      rewrite <- Hrun. by rewrite run_bind.
  - right. exists x, s, s''. by rewrite Hp.
Qed.

(** ** [handleMessage] *)

Lemma notify_steps (m : Message) (v : Value) (ls : list Listener) (s : State) :
  foldl (λ s' l, notify_step m v l s') s ls =
  set_logged (logged (world s) ++ notify_logged m v ls)
    (set_delivered (delivered (world s) ++ notify_delivered m v ls) s).
Proof.
  revert s. induction ls as [|l ls IH]; intros s; simpl.
  - by state_eq.
  - rewrite IH. unfold notify_step.
    destruct (lfun l (Key m) (Some v)) as [e|]; simpl; by state_eq.
Qed.

Lemma run_handleMessage (m : Message) (s : State) :
  dataMu (tv s) = false →
  SchemaValueTypeIsNil (options (tv s)) = false →
  run (handleMessage m) s = Done tt (handleMessage_state m s).
Proof.
  intros Hmu Hty. unfold handleMessage. simpl. rewrite Hmu. simpl. rewrite Hty. simpl.
  unfold handleMessage_state, target, apply_record, decode_log, tombstone, tv_data.
  case_bool_decide; [|destruct (GetSchemaValue m zeroValue) as [v [e|]]]; simpl.
  - rewrite (run_for_each (λ _, True) (notify_step m zeroValue)); [|  |done|done].
    2:{ intros l s' _. unfold notify_step. simpl. by destruct (lfun l _ _). }
    rewrite notify_steps. simpl. f_equal. by state_eq.
  - rewrite (run_for_each (λ _, True) (notify_step m v)); [|  |done|done].
    2:{ intros l s' _. unfold notify_step. simpl. by destruct (lfun l _ _). }
    rewrite notify_steps. simpl. f_equal. by state_eq.
  - rewrite (run_for_each (λ _, True) (notify_step m v)); [|  |done|done].
    2:{ intros l s' _. unfold notify_step. simpl. by destruct (lfun l _ _). }
    rewrite notify_steps. simpl. f_equal. by state_eq.
Qed.

Lemma handleMessage_state_tv (m : Message) (s : State) :
  tv (handleMessage_state m s) = tv s.
Proof. done. Qed.

Lemma handleMessage_state_data (m : Message) (s : State) :
  tv_data (handleMessage_state m s) = apply_record m (tv_data s).
Proof. unfold tv_data. simpl. by rewrite fn_lookup_insert. Qed.

Arguments handleMessage : simpl never.

Lemma run_handleMessage_bind {A : Type} (m : Message) (k : Prog A) (s : State) :
  dataMu (tv s) = false →
  SchemaValueTypeIsNil (options (tv s)) = false →
  run (handleMessage m >> k) s = run k (handleMessage_state m s).
Proof. intros Hmu Hty. by rewrite run_bind, run_handleMessage. Qed.

(** Without a value type, [handleMessage] panics at [reflect.New], holding
    [dataMu], before it looks at the record. *)
Lemma run_handleMessage_nil {A : Type} (m : Message) (k : Prog A) (s : State) :
  dataMu (tv s) = false →
  SchemaValueTypeIsNil (options (tv s)) = true →
  run (handleMessage m >> k) s = Panicked (set_dataMu true s).
Proof.
  intros Hmu Hty. rewrite run_bind. unfold handleMessage. simpl.
  rewrite Hmu. simpl. by rewrite Hty.
Qed.

Lemma run_handleMessages (ms : list Message) (s : State) :
  dataMu (tv s) = false →
  SchemaValueTypeIsNil (options (tv s)) = false →
  ∃ s', run (handleMessages ms) s = Done tt s' ∧
        tv s' = tv s ∧
        tv_data s' = foldl (λ mp m, apply_record m mp) (tv_data s) ms.
Proof.
  revert s. induction ms as [|m ms IH]; intros s Hmu Hty; [by exists s|].
  destruct (IH (handleMessage_state m s)) as (s' & Hrun & Htv & Hdata); [done|done|].
  exists s'. unfold handleMessages in *. cbn [for_each foldl].
  rewrite run_handleMessage_bind, Hrun, Htv, Hdata, handleMessage_state_data; done.
Qed.

(** The tailing loop on records delivered without error applies them one
    after the other, and goes on waiting. *)
Lemma run_watchReaderForNewMessages (topic : string) (ms : list Message) (s s' : State) :
  dataMu (tv s) = false →
  SchemaValueTypeIsNil (options (tv s)) = false →
  run (handleMessages ms) s = Done tt s' →
  run (watchReaderForNewMessages topic (fetched ms)) s = Done false s'.
Proof.
  revert s. induction ms as [|m ms IH]; intros s Hmu Hty Hrun.
  - cbn in *. by injection Hrun as ->.
  - unfold handleMessages in Hrun. cbn [for_each] in Hrun.
    rewrite run_handleMessage_bind in Hrun by done.
    cbn [fetched fmap list_fmap watchReaderForNewMessages]. cbn.
    rewrite run_handleMessage_bind by done. by apply IH.
Qed.

(** ** The read operations *)

Lemma run_Size (s : State) :
  dataMu (tv s) = false → run Size s = Done (size (tv_data s)) s.
Proof. intros Hmu. unfold Size. simpl. rewrite Hmu. simpl. f_equal. by state_eq. Qed.

Lemma run_ContainsKey (key : string) (s : State) :
  dataMu (tv s) = false →
  run (ContainsKey key) s = Done (bool_decide (is_Some (tv_data s !! key))) s.
Proof. intros Hmu. unfold ContainsKey. simpl. rewrite Hmu. simpl. f_equal. by state_eq. Qed.

Lemma run_Get (key : string) (s : State) :
  dataMu (tv s) = false → run (Get key) s = Done (tv_data s !! key) s.
Proof. intros Hmu. unfold Get. simpl. rewrite Hmu. simpl. f_equal. by state_eq. Qed.

(** *** [Entries] *)

Lemma copy_steps_tv (r : nat) (kvs : list (string * Value)) (s : State) :
  tv (foldl (λ s' kv, copy_step r kv s') s kvs) = tv s.
Proof. revert s. induction kvs as [|kv kvs IH]; intros s; [done|]. simpl. by rewrite IH. Qed.

Lemma copy_steps_heap (r r' : nat) (kvs : list (string * Value)) (s : State) :
  r' ≠ r → mapHeap (world (foldl (λ s' kv, copy_step r kv s') s kvs)) r' = mapHeap (world s) r'.
Proof.
  intros Hne. revert s. induction kvs as [|kv kvs IH]; intros s; [done|].
  simpl. rewrite IH. simpl. by rewrite fn_lookup_insert_ne.
Qed.

Lemma copy_steps_fresh (r : nat) (kvs : list (string * Value)) (s : State) :
  mapHeap (world (foldl (λ s' kv, copy_step r kv s') s kvs)) r =
  foldl (λ mp kv, <[kv.1 := kv.2]> mp) (mapHeap (world s) r) kvs.
Proof.
  revert s. induction kvs as [|kv kvs IH]; intros s; [done|].
  simpl. rewrite IH. simpl. by rewrite fn_lookup_insert.
Qed.

(** [Entries] hands back the reference held in [tv.data], whatever the copy
    loop built in the fresh map object. *)
Lemma run_Entries (s : State) :
  dataMu (tv s) = false →
  ∃ s', run Entries s = Done (data (tv s)) s' ∧
        tv s' = tv s ∧
        (∀ r, r ≠ nextRef (world s) → mapHeap (world s') r = mapHeap (world s) r).
Proof.
  intros Hmu. unfold Entries. simpl. rewrite Hmu. simpl.
  rewrite (run_for_each (λ _, True) (copy_step (nextRef (world s))));
    [| intros [k v] s' _; reflexivity | done | done].
  simpl. rewrite copy_steps_tv. eexists. split; [done|]. split.
  - simpl. rewrite copy_steps_tv. destruct s as [[] ?]. simpl in *. by subst.
  - intros r Hr. simpl. rewrite copy_steps_heap by done. simpl.
    by rewrite fn_lookup_insert_ne.
Qed.

(** ** [Close] *)

Lemma close_readers_steps (crs : list (string * cancelReader)) (s : State) :
  foldl (λ s' kv, set_closedReaders (closedReaders (world s') ++ [reader kv.2]) s') s crs =
  set_closedReaders (closedReaders (world s) ++ ((λ kv, reader kv.2) <$> crs)) s.
Proof.
  revert s. induction crs as [|kv crs IH]; intros s; simpl.
  - by state_eq.
  - rewrite IH. by state_eq.
Qed.

Lemma run_Close (s : State) :
  readersMu (tv s) = false → run Close s = Done tt (Close_state s).
Proof.
  intros Hmu. unfold Close, Close_state. simpl. rewrite Hmu. simpl.
  destruct (closed (tv s)) eqn:Hc; simpl.
  - f_equal. by state_eq.
  - rewrite run_bind_assoc.
    rewrite (run_for_each (λ _, True)
               (λ kv s', set_closedReaders (closedReaders (world s') ++ [reader kv.2]) s'));
      [| intros [k v] s' _; reflexivity | done | done].
    rewrite close_readers_steps. simpl. f_equal. by state_eq.
Qed.

(** [Close] calls no [cancelFunc]. *)
Lemma Close_state_cancelled (s : State) :
  cancelled (world (Close_state s)) = cancelled (world s).
Proof. unfold Close_state. by destruct (closed (tv s)). Qed.

Lemma Close_state_closed (s : State) : closed (tv (Close_state s)) = true.
Proof. unfold Close_state. by destruct (closed (tv s)) eqn:Hc. Qed.

Lemma Close_state_again (s : State) : closed (tv s) = true → Close_state s = s.
Proof. intros Hc. unfold Close_state. by rewrite Hc. Qed.

(** ** [partitionUpdateCheck] *)

(** *** The first loop: readers of partitions that are gone *)

Lemma loop1_steps (partitions : gmap string bool) (crs : list (string * cancelReader))
    (s : State) :
  foldl (λ s' kv, loop1_step partitions kv s') s crs =
  set_cancelReaders
    (foldl (λ m kv, delete kv.1 m) (cancelReaders (tv s)) (stale partitions crs))
    (set_closedReaders
       (closedReaders (world s) ++ ((λ kv, reader kv.2) <$> stale partitions crs))
       (set_cancelled
          (cancelled (world s) ++ ((λ kv, cancelFunc kv.2) <$> stale partitions crs)) s)).
Proof.
  revert s. induction crs as [|kv crs IH]; intros s; simpl.
  - by state_eq.
  - rewrite IH. unfold loop1_step, stale. rewrite filter_cons.
    destruct (decide (partitions !! kv.1 = None)) as [Hp|Hp].
    + rewrite Hp. simpl. by state_eq.
    + destruct (partitions !! kv.1); [|done]. by state_eq.
Qed.

(** *** The synchronous drain *)

Lemma drain_step_tv (partition : string) (f : Fetch) (s : State) :
  tv (drain_step partition f s) = tv s.
Proof. unfold drain_step. by destruct (ferr f), (fmsg f). Qed.

Lemma drain_state_tv (partition : string) (fs : list Fetch) (s : State) :
  tv (drain_state partition fs s) = tv s.
Proof.
  revert s. induction fs as [|f fs IH]; intros s; [done|].
  unfold drain_state in *. simpl. by rewrite IH, drain_step_tv.
Qed.

(** One round of the drain: it returns when the view has a value type or
    the fetch carries no record, and panics otherwise. *)
Lemma run_drain_step {A : Type} (partition : string) (f : Fetch) (fs : list Fetch)
    (k : Prog A) (s : State) :
  dataMu (tv s) = false →
  SchemaValueTypeIsNil (options (tv s)) = false ∨ fmsg f = None →
  run (drain partition (f :: fs) >> k) s =
  run (drain partition fs >> k) (drain_step partition f s).
Proof.
  intros Hmu Hok. cbn [drain]. rewrite !run_bind. cbn. rewrite !run_bind.
  unfold drain_step.
  destruct (fmsg f) as [m|] eqn:Hm.
  - destruct Hok as [Hty|]; [|done].
    destruct (ferr f) as [e|]; cbn; rewrite ?run_handleMessage_bind by done; done.
  - destruct (ferr f) as [e|]; cbn; rewrite ?run_bind; done.
Qed.

Lemma run_drain_step_nil {A : Type} (partition : string) (f : Fetch) (fs : list Fetch)
    (k : Prog A) (m : Message) (s : State) :
  dataMu (tv s) = false →
  SchemaValueTypeIsNil (options (tv s)) = true →
  fmsg f = Some m →
  ∃ s', run (drain partition (f :: fs) >> k) s = Panicked s'.
Proof.
  intros Hmu Hty Hm. cbn [drain]. rewrite !run_bind. cbn. rewrite !run_bind. rewrite Hm.
  destruct (ferr f) as [e|]; cbn; rewrite run_handleMessage_nil by done; eauto.
Qed.


Lemma run_drain {A : Type} (partition : string) (fs : list Fetch) (k : Prog A) (s : State) :
  dataMu (tv s) = false →
  SchemaValueTypeIsNil (options (tv s)) = false →
  run (drain partition fs >> k) s = run k (drain_state partition fs s).
Proof.
  revert s. induction fs as [|f fs IH]; intros s Hmu Hty; [done|].
  change (drain_state partition (f :: fs) s)
    with (drain_state partition fs (drain_step partition f s)).
  rewrite run_drain_step by auto. apply IH; by rewrite drain_step_tv.
Qed.

(** The drain returns, or the view has no value type and it panics. *)
Lemma run_drain_cases {A : Type} (partition : string) (fs : list Fetch) (k : Prog A)
    (s : State) :
  dataMu (tv s) = false →
  run (drain partition fs >> k) s = run k (drain_state partition fs s) ∨
  (SchemaValueTypeIsNil (options (tv s)) = true ∧
   ∃ s', run (drain partition fs >> k) s = Panicked s').
Proof.
  intros Hmu.
  destruct (SchemaValueTypeIsNil (options (tv s))) eqn:Hty; [|left; by apply run_drain].
  revert s Hmu Hty. induction fs as [|f fs IH]; intros s Hmu Hty; [by left|].
  destruct (fmsg f) as [m|] eqn:Hm.
  - right. split; [done|]. by apply (run_drain_step_nil partition f fs k m).
  - change (drain_state partition (f :: fs) s)
      with (drain_state partition fs (drain_step partition f s)).
    rewrite run_drain_step by auto.
    destruct (IH (drain_step partition f s)) as [Heq|[_ Hp]];
      rewrite ?drain_step_tv; auto.
Qed.

(** *** The second loop: readers for the partitions that are new *)

Lemma open_state_dataMu (partition : string) (fs : list Fetch) (s : State) :
  dataMu (tv (open_state partition fs s)) = dataMu (tv s).
Proof. unfold open_state. cbn. by rewrite drain_state_tv. Qed.

Lemma loop2_step_dataMu (kv : string * bool) (s : State) :
  dataMu (tv (loop2_step kv s).2) = dataMu (tv s).
Proof.
  unfold loop2_step. destruct (cancelReaders (tv s) !! kv.1); [done|].
  destruct (brokerBacklog (world s) kv.1); [|done]. apply open_state_dataMu.
Qed.

(** *** What the steps leave alone *)

Lemma quiet_refl (s : State) : quiet s s.
Proof. by split. Qed.

Lemma quiet_trans (s1 s2 s3 : State) : quiet s1 s2 → quiet s2 s3 → quiet s1 s3.
Proof.
  intros [] []. split; try congruence.
  intros r Hr. rewrite q_heap1 by congruence. auto.
Qed.

Lemma frame_refl (s : State) : frame s s.
Proof. by split. Qed.

Lemma frame_trans (s1 s2 s3 : State) : frame s1 s2 → frame s2 s3 → frame s1 s3.
Proof.
  intros [] []. split; try congruence.
  intros r Hr. rewrite fr_heap1 by congruence. auto.
Qed.

Lemma quiet_frame (s s' : State) : quiet s s' → frame s s'.
Proof. intros []. split; congruence || done. Qed.

Lemma handleMessage_state_quiet (m : Message) (s : State) :
  quiet s (handleMessage_state m s).
Proof. split; try done. intros r Hr. simpl. by rewrite fn_lookup_insert_ne. Qed.

Lemma drain_step_quiet (partition : string) (f : Fetch) (s : State) :
  quiet s (drain_step partition f s).
Proof.
  unfold drain_step. destruct (ferr f) as [e|], (fmsg f) as [m|]; try by split.
  - eapply quiet_trans; [|apply handleMessage_state_quiet]. by split.
  - apply handleMessage_state_quiet.
Qed.

Lemma drain_state_quiet (partition : string) (fs : list Fetch) (s : State) :
  quiet s (drain_state partition fs s).
Proof.
  revert s. induction fs as [|f fs IH]; intros s; [apply quiet_refl|].
  eapply quiet_trans; [apply (drain_step_quiet partition f)|apply IH].
Qed.

Lemma drain_step_data (partition : string) (f : Fetch) (s : State) :
  tv_data (drain_step partition f s) =
  match fmsg f with Some m => apply_record m (tv_data s) | None => tv_data s end.
Proof.
  unfold drain_step. destruct (ferr f) as [e|], (fmsg f) as [m|]; try done;
    by rewrite handleMessage_state_data.
Qed.

Lemma drain_state_data (partition : string) (fs : list Fetch) (s : State) :
  tv_data (drain_state partition fs s) =
  foldl (λ mp m, apply_record m mp) (tv_data s) (backlog_messages fs).
Proof.
  revert s. induction fs as [|f fs IH]; intros s; [done|].
  change (drain_state partition (f :: fs) s)
    with (drain_state partition fs (drain_step partition f s)).
  rewrite IH, drain_step_data. unfold backlog_messages. simpl.
  by destruct (fmsg f).
Qed.

Lemma handleMessage_state_logged (m : Message) (s : State) (x : LogEntry) :
  x ∈ logged (world s) → x ∈ logged (world (handleMessage_state m s)).
Proof. intros Hx. simpl. apply elem_of_app. by left. Qed.

Lemma drain_step_logged_mono (partition : string) (f : Fetch) (s : State) (x : LogEntry) :
  x ∈ logged (world s) → x ∈ logged (world (drain_step partition f s)).
Proof.
  intros Hx. unfold drain_step. destruct (ferr f) as [e|], (fmsg f) as [m|]; try done.
  - apply handleMessage_state_logged. simpl. apply elem_of_app. by left.
  - simpl. apply elem_of_app. by left.
  - by apply handleMessage_state_logged.
Qed.

Lemma drain_state_logged_mono (partition : string) (fs : list Fetch) (s : State)
    (x : LogEntry) :
  x ∈ logged (world s) → x ∈ logged (world (drain_state partition fs s)).
Proof.
  revert s. induction fs as [|f fs IH]; intros s Hx; [done|].
  apply IH. by apply drain_step_logged_mono.
Qed.

(** Every fetch error met during the drain is logged. *)
Lemma drain_state_logged (partition : string) (fs : list Fetch) (s : State)
    (f : Fetch) (e : error) :
  f ∈ fs → ferr f = Some e →
  LogReadNextFailed partition e ∈ logged (world (drain_state partition fs s)).
Proof.
  revert s. induction fs as [|f' fs IH]; intros s Hf He; [by apply elem_of_nil in Hf|].
  change (drain_state partition (f' :: fs) s)
    with (drain_state partition fs (drain_step partition f' s)).
  apply elem_of_cons in Hf as [->|Hf]; [|by apply IH].
  apply drain_state_logged_mono. unfold drain_step. rewrite He.
  destruct (fmsg f') as [m|].
  - apply handleMessage_state_logged. simpl. apply elem_of_app. right.
    by apply list_elem_of_singleton.
  - simpl. apply elem_of_app. right. by apply list_elem_of_singleton.
Qed.

(** *** Facts about one new partition *)

Lemma open_state_frame (partition : string) (fs : list Fetch) (s : State) :
  frame s (open_state partition fs s).
Proof.
  unfold open_state.
  set (s1 := set_opened _ (set_nextHandle _ s)).
  pose proof (drain_state_quiet partition fs s1) as [Htv Hheap ? ? ? ? ? ? ? ? ?].
  split; cbn; rewrite ?Htv; auto.
Qed.

Lemma open_state_registry (partition : string) (fs : list Fetch) (s : State) :
  cancelReaders (tv (open_state partition fs s)) =
  <[partition := mkCancelReader (nextHandle (world s)) (S (nextHandle (world s)))]>
    (cancelReaders (tv s)).
Proof.
  unfold open_state.
  set (s1 := set_opened _ (set_nextHandle _ s)).
  pose proof (drain_state_quiet partition fs s1) as [Htv ? ? ? Hnh ? ? ? ? ? ?].
  cbn. by rewrite Htv, Hnh.
Qed.

Lemma open_state_opened (partition : string) (fs : list Fetch) (s : State) :
  opened (world (open_state partition fs s)) =
  opened (world s) ++ [(partition, nextHandle (world s))].
Proof.
  unfold open_state.
  set (s1 := set_opened _ (set_nextHandle _ s)).
  pose proof (drain_state_quiet partition fs s1) as [? ? ? ? ? ? ? Hop ? ? ?].
  cbn. by rewrite Hop.
Qed.

Lemma open_state_data (partition : string) (fs : list Fetch) (s : State) :
  tv_data (open_state partition fs s) =
  foldl (λ mp m, apply_record m mp) (tv_data s) (backlog_messages fs).
Proof.
  unfold open_state.
  set (s1 := set_opened _ (set_nextHandle _ s)).
  pose proof (drain_state_data partition fs s1) as Hd.
  pose proof (drain_state_quiet partition fs s1) as [Htv ? ? ? ? ? ? ? ? ? ?].
  unfold tv_data in *. cbn. rewrite Htv in *. exact Hd.
Qed.



(** *** The second loop as a relation *)

Lemma foldl_err_loop2 (l : list (string * bool)) (s : State) :
  loop2 l s (foldl_err loop2_step l s).1 (foldl_err loop2_step l s).2.
Proof.
  revert s. induction l as [|kv l IH]; intros s; [constructor|].
  cbn [foldl_err].
  destruct (cancelReaders (tv s) !! kv.1) as [cr|] eqn:Hreg.
  - replace (loop2_step kv s) with (@None error, s)
      by (unfold loop2_step; by rewrite Hreg).
    by eapply loop2_known.
  - destruct (brokerBacklog (world s) kv.1) as [fs|e] eqn:Hopen.
    + replace (loop2_step kv s) with (@None error, open_state kv.1 fs s)
        by (unfold loop2_step; by rewrite Hreg, Hopen).
      by eapply loop2_open.
    + replace (loop2_step kv s)
        with (Some (Errorf "create new reader failed for %s: %w" kv.1 e), s)
        by (unfold loop2_step; by rewrite Hreg, Hopen).
      by eapply loop2_fail.
Qed.

Lemma keys_here {B : Type} (kv : string * B) (l : list (string * B)) :
  kv.1 ∈ (kv :: l).*1.
Proof. rewrite fmap_cons, elem_of_cons. by left. Qed.

Lemma keys_further {B : Type} (kv : string * B) (l : list (string * B)) (q : string) :
  q ∈ l.*1 → q ∈ (kv :: l).*1.
Proof. intros Hq. rewrite fmap_cons, elem_of_cons. by right. Qed.

Lemma loop2_frame l s r s' : loop2 l s r s' → frame s s'.
Proof.
  induction 1; try done || apply frame_refl.
  eapply frame_trans; [apply open_state_frame|done].
Qed.

Lemma loop2_registry_mono l s r s' q cr :
  loop2 l s r s' →
  cancelReaders (tv s) !! q = Some cr → cancelReaders (tv s') !! q = Some cr.
Proof.
  induction 1 as [|? ? ? ? ? ? ? ? IH| |kv ? s ? ? ? Hreg ? ? IH]; intros Hq; auto.
  apply IH. rewrite open_state_registry, lookup_insert_ne; [done|congruence].
Qed.

Lemma loop2_registry_dom l s r s' q :
  loop2 l s r s' →
  is_Some (cancelReaders (tv s') !! q) →
  is_Some (cancelReaders (tv s) !! q) ∨ q ∈ l.*1.
Proof.
  induction 1 as [|? ? ? ? ? ? ? ? IH| |kv ? s ? ? ? Hreg ? ? IH]; intros Hq; auto.
  - destruct (IH Hq); [by left|right; by apply keys_further].
  - destruct (IH Hq) as [Hin|Hin]; [|right; by apply keys_further].
    rewrite open_state_registry in Hin.
    destruct (decide (kv.1 = q)) as [<-|Hne]; [right; apply keys_here|].
    rewrite lookup_insert_ne in Hin by done. by left.
Qed.


Lemma loop2_success l s s' q :
  loop2 l s None s' → q ∈ l.*1 → is_Some (cancelReaders (tv s') !! q).
Proof.
  remember None as r eqn:Hr. intros Hl. revert Hr.
  induction Hl as [|kv ? ? cr ? ? ? Hl IH| |kv ? s ? ? ? Hreg ? Hl IH]; intros Hr Hq.
  - by apply elem_of_nil in Hq.
  - rewrite fmap_cons in Hq. apply elem_of_cons in Hq as [->|Hq]; [|by apply IH].
    exists cr. by eapply loop2_registry_mono.
  - done.
  - rewrite fmap_cons in Hq. apply elem_of_cons in Hq as [->|Hq]; [|by apply IH].
    eexists. eapply loop2_registry_mono; [done|].
    by rewrite open_state_registry, lookup_insert_eq.
Qed.

Lemma loop2_failure l s err s' :
  loop2 l s (Some err) s' →
  ∃ q e, q ∈ l.*1 ∧ cancelReaders (tv s) !! q = None ∧
         brokerBacklog (world s) q = inr e ∧
         err = Errorf "create new reader failed for %s: %w" q e.
Proof.
  remember (Some err) as r eqn:Hr. intros Hl. revert Hr.
  induction Hl as [|kv ? ? cr ? ? ? Hl IH|kv ? ? e|kv ? s fs ? ? Hreg Hopen Hl IH];
    intros Hr.
  - done.
  - destruct (IH Hr) as (q & e & ? & ? & ? & ?). exists q, e.
    split_and!; [by apply keys_further|done|done|done].
  - exists kv.1, e. split_and!; [apply keys_here|done|done|congruence].
  - destruct (IH Hr) as (q & e & Hq & Hnone & Hbk & ?). exists q, e.
    rewrite open_state_registry in Hnone.
    apply lookup_insert_None in Hnone as [Hnone _].
    rewrite (fr_brokerBacklog _ _ (open_state_frame kv.1 fs s)) in Hbk.
    split_and!; [by apply keys_further|done|done|done].
Qed.


Lemma loop2_noop l s r s' :
  loop2 l s r s' →
  (∀ q, q ∈ l.*1 → is_Some (cancelReaders (tv s) !! q)) →
  r = None ∧ s' = s.
Proof.
  induction 1 as [|kv ? ? cr ? ? ? Hl IH|kv ? ? e Hreg Hopen
    |kv ? s fs ? ? Hreg Hopen Hl IH]; intros Hall.
  - done.
  - apply IH. intros q Hq. apply Hall. by apply keys_further.
  - destruct (Hall kv.1) as [cr Hcr]; [apply keys_here|congruence].
  - destruct (Hall kv.1) as [cr Hcr]; [apply keys_here|congruence].
Qed.

Lemma apply_record_other (m : Message) (mp : gmap string Value) (k : string) :
  Key m ≠ k → apply_record m mp !! k = mp !! k.
Proof.
  intros Hk. unfold apply_record.
  destruct (tombstone m); [by rewrite lookup_delete_ne|by rewrite lookup_insert_ne].
Qed.

Lemma apply_records_other (ms : list Message) (mp : gmap string Value) (k : string) :
  (∀ m, m ∈ ms → Key m ≠ k) →
  foldl (λ mp' m, apply_record m mp') mp ms !! k = mp !! k.
Proof.
  revert mp. induction ms as [|m ms IH]; intros mp Hall; [done|].
  simpl. rewrite IH, apply_record_other; [done| |]; intros; apply Hall;
    rewrite elem_of_cons; auto.
Qed.

Lemma loop2_data l s r s' (k : string) :
  loop2 l s r s' →
  (∀ q fs m, q ∈ l.*1 → cancelReaders (tv s) !! q = None →
             brokerBacklog (world s) q = inl fs → m ∈ backlog_messages fs →
             Key m ≠ k) →
  tv_data s' !! k = tv_data s !! k.
Proof.
  induction 1 as [|kv l ? cr ? ? ? Hl IH|
    |kv l s fs ? ? Hreg Hopen Hl IH]; intros Hall.
  - done.
  - apply IH. intros q fs m Hq. apply Hall. rewrite fmap_cons, elem_of_cons. auto.
  - done.
  - rewrite IH.
    + rewrite open_state_data. apply apply_records_other.
      intros m Hm. apply (Hall kv.1 fs m); [|done|done|done].
      rewrite fmap_cons, elem_of_cons. auto.
    + intros q fs' m Hq Hnone Hbk Hm.
      rewrite open_state_registry in Hnone.
      apply lookup_insert_None in Hnone as [Hnone _].
      rewrite (fr_brokerBacklog _ _ (open_state_frame kv.1 fs s)) in Hbk.
      apply (Hall q fs' m); [|done|done|done].
      rewrite fmap_cons, elem_of_cons. auto.
Qed.


(** *** Facts about the first loop *)

Lemma partition_set_lookup (partitionsArray : list string) (p : string) :
  partition_set partitionsArray !! p =
  if decide (p ∈ partitionsArray) then Some true else None.
Proof.
  unfold partition_set.
  assert (∀ m : gmap string bool,
    foldl (λ m' q, <[q := true]> m') m partitionsArray !! p =
    if decide (p ∈ partitionsArray) then Some true else m !! p) as Hgen.
  { induction partitionsArray as [|q l IH]; intros m; cbn [foldl].
    - destruct (decide (p ∈ [])) as [Hin|_]; [by apply elem_of_nil in Hin|done].
    - rewrite IH.
      destruct (decide (p ∈ l)) as [Hin|Hnin], (decide (p ∈ q :: l)) as [Hin'|Hnin'];
        rewrite elem_of_cons in *; try done.
      + destruct Hnin'. auto.
      + destruct Hin' as [->|?]; [by rewrite lookup_insert_eq|done].
      + rewrite lookup_insert_ne; [done|]. intros <-. destruct Hnin'. auto. }
  rewrite Hgen. by rewrite lookup_empty.
Qed.

Lemma range_map_elem_of {A : Type} (seed : nat) (m : gmap string A) (k : string) (v : A) :
  (k, v) ∈ range_map seed m ↔ m !! k = Some v.
Proof. rewrite (range_map_perm A seed m). apply elem_of_map_to_list. Qed.

Lemma range_map_keys {A : Type} (seed : nat) (m : gmap string A) (k : string) :
  k ∈ (range_map seed m).*1 ↔ is_Some (m !! k).
Proof.
  rewrite list_elem_of_fmap. split.
  - intros ([k' v] & -> & Hin). apply range_map_elem_of in Hin. by exists v.
  - intros [v Hv]. exists (k, v). split; [done|]. by apply range_map_elem_of.
Qed.

(** The registry after the deletions of the first loop. *)
Lemma deletes_lookup (l : list (string * cancelReader)) (m : gmap string cancelReader)
    (q : string) :
  foldl (λ m' kv, delete kv.1 m') m l !! q =
  if decide (q ∈ l.*1) then None else m !! q.
Proof.
  revert m. induction l as [|kv l IH]; intros m; cbn [foldl].
  - destruct (decide (q ∈ [].*1)) as [Hin|_]; [by apply elem_of_nil in Hin|done].
  - rewrite IH, fmap_cons.
    destruct (decide (q ∈ l.*1)) as [Hin|Hnin],
             (decide (q ∈ kv.1 :: l.*1)) as [Hin'|Hnin'];
      rewrite elem_of_cons in *; try done.
    + destruct Hnin'. auto.
    + destruct Hin' as [->|?]; [by rewrite lookup_delete_eq|done].
    + rewrite lookup_delete_ne; [done|]. intros <-. destruct Hnin'. auto.
Qed.

Lemma stale_keys (partitions : gmap string bool) (seed : nat)
    (m : gmap string cancelReader) (q : string) :
  q ∈ (stale partitions (range_map seed m)).*1 ↔
  is_Some (m !! q) ∧ partitions !! q = None.
Proof.
  unfold stale. rewrite list_elem_of_fmap. split.
  - intros ([k v] & -> & Hin). apply list_elem_of_filter in Hin as [Hp Hin].
    apply range_map_elem_of in Hin. split; [by exists v|done].
  - intros [[v Hv] Hp]. exists (q, v). split; [done|].
    apply list_elem_of_filter. split; [done|]. by apply range_map_elem_of.
Qed.

Lemma stale_nil (partitions : gmap string bool) (seed : nat)
    (m : gmap string cancelReader) :
  (∀ q, is_Some (m !! q) → is_Some (partitions !! q)) →
  stale partitions (range_map seed m) = [].
Proof.
  intros Hall. destruct (stale partitions (range_map seed m)) as [|[q cr] l] eqn:Hst; [done|].
  assert (q ∈ (stale partitions (range_map seed m)).*1) as Hq.
  { rewrite Hst, fmap_cons, elem_of_cons. auto. }
  apply stale_keys in Hq as [Hsome Hnone]. apply Hall in Hsome.
  rewrite Hnone in Hsome. by destruct Hsome.
Qed.

(** *** The whole of [partitionUpdateCheck] *)

Lemma partitionUpdateCheck_state_loop2 (s : State) (ps : list string) :
  brokerPartitions (world s) (Topic (options (tv s))) = inl ps →
  ∃ r s5,
    partitionUpdateCheck_state s = (r, set_readersMu false s5) ∧
    loop2 (range_map (S (rangeSeed (world s))) (partition_set ps)) (after_removal ps s) r s5.
Proof.
  intros Hps. unfold partitionUpdateCheck_state. rewrite Hps. cbn zeta.
  rewrite loop1_steps. eexists _, _. split; [reflexivity|].
  apply foldl_err_loop2.
Qed.

Lemma after_removal_registry (ps : list string) (s : State) (q : string) :
  cancelReaders (tv (after_removal ps s)) !! q =
  if decide (q ∈ ps) then cancelReaders (tv s) !! q else None.
Proof.
  unfold after_removal. cbn. rewrite deletes_lookup.
  destruct (decide (q ∈ _.*1)) as [Hin|Hnin].
  - apply stale_keys in Hin as [_ Hnone]. rewrite partition_set_lookup in Hnone.
    by destruct (decide (q ∈ ps)).
  - destruct (decide (q ∈ ps)) as [Hq|Hq]; [done|].
    destruct (cancelReaders (tv s) !! q) as [cr|] eqn:Hreg; [|done].
    destruct Hnin. apply stale_keys. split; [by rewrite Hreg|].
    rewrite partition_set_lookup. by rewrite decide_False.
Qed.

Lemma after_removal_data (ps : list string) (s : State) :
  tv_data (after_removal ps s) = tv_data s.
Proof. done. Qed.

(** The cancellation handle and the reader of a partition that is gone. *)
Lemma after_removal_cancelled (ps : list string) (s : State) (p : string) (cr : cancelReader) :
  cancelReaders (tv s) !! p = Some cr → p ∉ ps →
  cancelFunc cr ∈ cancelled (world (after_removal ps s)) ∧
  reader cr ∈ closedReaders (world (after_removal ps s)).
Proof.
  intros Hreg Hp. unfold after_removal. cbn.
  assert ((p, cr) ∈ stale (partition_set ps)
            (range_map (rangeSeed (world s)) (cancelReaders (tv s)))) as Hin.
  { apply list_elem_of_filter. split; [|by apply range_map_elem_of].
    cbn. rewrite partition_set_lookup. by rewrite decide_False. }
  split; apply elem_of_app; right; apply list_elem_of_fmap; by exists (p, cr).
Qed.

Lemma after_removal_noop (ps : list string) (s : State) :
  (∀ q, is_Some (cancelReaders (tv s) !! q) → q ∈ ps) →
  after_removal ps s = set_rangeSeed (S (S (rangeSeed (world s)))) (set_readersMu true s).
Proof.
  intros Hall. unfold after_removal. cbn zeta. rewrite stale_nil.
  - cbn. by state_eq.
  - intros q Hq. rewrite partition_set_lookup. rewrite decide_True; [done|auto].
Qed.

Lemma partition_set_keys (seed : nat) (ps : list string) (q : string) :
  q ∈ (range_map seed (partition_set ps)).*1 ↔ q ∈ ps.
Proof.
  rewrite range_map_keys, partition_set_lookup.
  destruct (decide (q ∈ ps)); split; try done.
Qed.

(** With every partition registered and no other reader around,
    [partitionUpdateCheck] only advances the runtime's iteration seed. *)
Lemma partitionUpdateCheck_state_noop (s : State) (ps : list string) :
  readersMu (tv s) = false →
  brokerPartitions (world s) (Topic (options (tv s))) = inl ps →
  (∀ q, is_Some (cancelReaders (tv s) !! q) ↔ q ∈ ps) →
  partitionUpdateCheck_state s = (None, set_rangeSeed (S (S (rangeSeed (world s)))) s).
Proof.
  intros Hmu Hps Hall.
  destruct (partitionUpdateCheck_state_loop2 s ps Hps) as (r & s5 & -> & Hl).
  rewrite after_removal_noop in Hl by (intros q; apply Hall).
  apply loop2_noop in Hl as [-> ->].
  - f_equal. by state_eq.
  - intros q Hq. apply partition_set_keys in Hq. cbn. by apply Hall.
Qed.

(** After a call that returned no error the registry holds exactly the
    partitions of the topic. *)
Lemma partitionUpdateCheck_state_registry (s : State) (ps : list string) (s' : State) :
  brokerPartitions (world s) (Topic (options (tv s))) = inl ps →
  partitionUpdateCheck_state s = (None, s') →
  ∀ q, is_Some (cancelReaders (tv s') !! q) ↔ q ∈ ps.
Proof.
  intros Hps Hst q.
  destruct (partitionUpdateCheck_state_loop2 s ps Hps) as (r & s5 & Heq & Hl).
  rewrite Hst in Heq. injection Heq as <- ->. cbn. split.
  - intros Hq. apply (loop2_registry_dom _ _ _ _ _ Hl) in Hq as [Hq|Hq].
    + rewrite after_removal_registry in Hq. destruct (decide (q ∈ ps)); [done|].
      by destruct Hq.
    + by apply partition_set_keys in Hq.
  - intros Hq. eapply loop2_success; [done|]. by apply partition_set_keys.
Qed.

(** *** Running [partitionUpdateCheck] *)

Lemma loop2_step_options (kv : string * bool) (s : State) :
  options (tv (loop2_step kv s).2) = options (tv s).
Proof.
  unfold loop2_step. destruct (cancelReaders (tv s) !! kv.1); [done|].
  destruct (brokerBacklog (world s) kv.1); [|done]. apply open_state_frame.
Qed.

Lemma loop2_step_registry_mono (kv : string * bool) (s : State) (q : string)
    (cr : cancelReader) :
  cancelReaders (tv s) !! q = Some cr →
  cancelReaders (tv (loop2_step kv s).2) !! q = Some cr.
Proof.
  intros Hq. unfold loop2_step.
  destruct (cancelReaders (tv s) !! kv.1) eqn:Hreg; [done|].
  destruct (brokerBacklog (world s) kv.1); [|done]. cbn [snd].
  rewrite open_state_registry, lookup_insert_ne; [done|congruence].
Qed.

(** When it finds the mutexes free, [partitionUpdateCheck] returns what
    [partitionUpdateCheck_state] says, or it panics: then the view has no
    value type and some partition of the topic had no reader. *)
Lemma run_partitionUpdateCheck_cases (s : State) :
  readersMu (tv s) = false →
  dataMu (tv s) = false →
  run partitionUpdateCheck s =
    Done (partitionUpdateCheck_state s).1 (partitionUpdateCheck_state s).2 ∨
  (SchemaValueTypeIsNil (options (tv s)) = true ∧
   (∃ ps q, brokerPartitions (world s) (Topic (options (tv s))) = inl ps ∧
            q ∈ ps ∧ cancelReaders (tv s) !! q = None) ∧
   ∃ s', run partitionUpdateCheck s = Panicked s').
Proof.
  intros Hrmu Hdmu.
  destruct (brokerPartitions (world s) (Topic (options (tv s)))) as [ps|err] eqn:Hps.
  2:{ left. unfold partitionUpdateCheck, partitionUpdateCheck_state. cbn. by rewrite Hps. }
  unfold partitionUpdateCheck, partitionUpdateCheck_state. cbn. rewrite Hps.
  cbn. rewrite Hrmu. cbn.
  rewrite (run_for_each (λ _, True) (loop1_step (partition_set ps))); [| |done|done].
  2:{ intros [p cr] s' _. unfold loop1_step. cbn. by destruct (partition_set ps !! p). }
  rewrite !loop1_steps. cbn.
  change (set_rangeSeed _ (set_cancelReaders _ (set_closedReaders _ (set_cancelled _ _))))
    with (after_removal ps s).
  match goal with
  | |- run (bind (for_each_err ?l ?body) ?k) _ = _ ∨ _ =>
      destruct (run_for_each_err_cases
                  (λ s', dataMu (tv s') = false ∧
                         options (tv s') = options (tv s) ∧
                         ∀ q cr, cancelReaders (tv (after_removal ps s)) !! q = Some cr →
                                 cancelReaders (tv s') !! q = Some cr)
                  (λ kv s', SchemaValueTypeIsNil (options (tv s')) = true ∧
                            cancelReaders (tv s') !! kv.1 = None)
                  loop2_step l body k (after_removal ps s))
        as [Heq|(kv & s' & s'' & Hkv & (_ & Hopt & Hmono) & (Hty & Hnone) & Hrun)]
  end.
  - intros [p b] s' _ (Hmu' & Hopt & _). unfold loop2_step. cbn.
    destruct (cancelReaders (tv s') !! p) eqn:Hreg; [by left|]. cbn.
    destruct (brokerBacklog (world s') p) as [fs|err]; [|by left]. cbn.
    match goal with
    | |- run (bind (drain p fs) ?k1) ?s1 = _ ∨ _ =>
        destruct (run_drain_cases p fs (k1 tt) s1) as [Heq|[Hty [s'' Hp]]]; [done| |]
    end.
    + left. rewrite Heq. reflexivity.
    + right. split; [done|]. exists s''. exact Hp.
  - intros kv s' _ (Hmu' & Hopt & Hmono). split_and!.
    + by rewrite loop2_step_dataMu.
    + by rewrite loop2_step_options.
    + intros q cr Hq. by apply loop2_step_registry_mono, Hmono.
  - done.
  - left. rewrite Heq. done.
  - right. rewrite Hopt in Hty. split; [done|]. split; [|by exists s''].
    apply (list_elem_of_fmap_2 fst) in Hkv. apply partition_set_keys in Hkv.
    exists ps, kv.1. split_and!; [done|done|].
    destruct (cancelReaders (tv s) !! kv.1) as [cr|] eqn:Hreg; [|done].
    rewrite (Hmono kv.1 cr) in Hnone; [done|].
    by rewrite after_removal_registry, decide_True.
Qed.

Lemma run_partitionUpdateCheck (s : State) :
  readersMu (tv s) = false →
  dataMu (tv s) = false →
  SchemaValueTypeIsNil (options (tv s)) = false →
  run partitionUpdateCheck s =
  Done (partitionUpdateCheck_state s).1 (partitionUpdateCheck_state s).2.
Proof.
  intros Hrmu Hdmu Hty.
  destruct (run_partitionUpdateCheck_cases s Hrmu Hdmu) as [Heq|[Hnil _]]; [done|].
  congruence.
Qed.

(** A call that returned is the one [partitionUpdateCheck_state] describes. *)
Lemma run_partitionUpdateCheck_returned (s s' : State) (r : option error) :
  readersMu (tv s) = false →
  dataMu (tv s) = false →
  run partitionUpdateCheck s = Done r s' →
  partitionUpdateCheck_state s = (r, s').
Proof.
  intros Hrmu Hdmu Hrun.
  destruct (run_partitionUpdateCheck_cases s Hrmu Hdmu) as [Heq|(_ & _ & s'' & Hp)];
    [|congruence].
  rewrite Heq in Hrun. injection Hrun as <- <-.
  by destruct (partitionUpdateCheck_state s).
Qed.

(** With every partition registered the call returns, value type or not: no
    record is drained. *)
Lemma run_partitionUpdateCheck_registered (s : State) (ps : list string) :
  readersMu (tv s) = false →
  dataMu (tv s) = false →
  brokerPartitions (world s) (Topic (options (tv s))) = inl ps →
  (∀ q, q ∈ ps → is_Some (cancelReaders (tv s) !! q)) →
  run partitionUpdateCheck s =
  Done (partitionUpdateCheck_state s).1 (partitionUpdateCheck_state s).2.
Proof.
  intros Hrmu Hdmu Hps Hall.
  destruct (run_partitionUpdateCheck_cases s Hrmu Hdmu)
    as [Heq|(_ & (ps' & q & Hps' & Hq & Hnone) & _)]; [done|].
  rewrite Hps in Hps'. injection Hps' as <-.
  destruct (Hall q Hq) as [cr Hcr]. congruence.
Qed.

(** * The claims *)

Lemma not_tombstone (m : Message) : Payload m ≠ [] → tombstone m = false.
Proof.
  intros Hp. unfold tombstone. apply bool_decide_eq_false.
  by destruct (Payload m).
Qed.

Lemma is_tombstone (m : Message) : Payload m = [] → tombstone m = true.
Proof. intros Hp. unfold tombstone. rewrite Hp. done. Qed.

(** C3, as the code has it: [IsEmpty] never returns. It takes [dataMu] and
    calls [Size], whose [Lock] on the same mutex waits for ever ([run_Size]
    has what [Size] returns on its own); when the mutex is already held,
    [IsEmpty] waits at its own [Lock]. *)
Theorem IsEmpty_never_returns (s : State) :
  run IsEmpty s = Blocked (if dataMu (tv s) then s else set_dataMu true s).
Proof. unfold IsEmpty. simpl. by destruct (dataMu (tv s)) eqn:Hmu. Qed.

(** C5, amended: on a view whose [SchemaValueType] is set, for a tombstone
    record for key [k], the key is removed from the state store and every
    registered listener is called, in order, with [(k, zero value of the
    configured type)]: a non-nil interface value, not an absent one. *)
Theorem tombstone_notification (m : Message) (s : State) :
  dataMu (tv s) = false →
  SchemaValueTypeIsNil (options (tv s)) = false →
  Payload m = [] →
  ∃ s', run (handleMessage m) s = Done tt s' ∧
        tv_data s' = delete (Key m) (tv_data s) ∧
        delivered (world s') =
          delivered (world s) ++ ((λ l, (lid l, Key m, Some zeroValue)) <$> listeners (tv s)).
Proof.
  intros Hmu Hty Hp. exists (handleMessage_state m s).
  split; [by apply run_handleMessage|].
  rewrite handleMessage_state_data. unfold apply_record, handleMessage_state, target.
  rewrite is_tombstone by done. done.
Qed.

(** C7: on a view whose [SchemaValueType] is set, after a non-empty sequence
    of non-tombstone records for key [k] has been applied in order (by
    successive calls of [handleMessage], as the tailing loop of a partition's
    reader makes them), [Get k] returns the decoded value of the last record:
    what [GetSchemaValue] left in its target, which is the decoder's result
    when the decoder succeeds. *)
Theorem Get_after_records (k : string) (ms : list Message) (m : Message) (s : State) :
  dataMu (tv s) = false →
  SchemaValueTypeIsNil (options (tv s)) = false →
  Forall (λ r, Key r = k ∧ Payload r ≠ []) ms →
  last ms = Some m →
  ∃ s', run (handleMessages ms) s = Done tt s' ∧
        (∀ topic, run (watchReaderForNewMessages topic (fetched ms)) s = Done false s') ∧
        run (Get k) s' = Done (Some (GetSchemaValue m zeroValue).1) s' ∧
        (∀ v, decode (Payload m) = inl v → run (Get k) s' = Done (Some v) s').
Proof.
  intros Hmu Hty Hall Hlast.
  destruct (run_handleMessages ms s Hmu Hty) as (s' & Hrun & Htv & Hdata).
  exists s'. split; [done|].
  split; [intros topic; by apply run_watchReaderForNewMessages|].
  apply last_Some in Hlast as [ms' ->].
  apply Forall_app in Hall as [_ Hm]. apply Forall_singleton in Hm as [<- Hp].
  assert (tv_data s' !! Key m = Some (GetSchemaValue m zeroValue).1) as Hget.
  { rewrite Hdata, foldl_app. cbn. unfold apply_record.
    rewrite not_tombstone by done. by rewrite lookup_insert_eq. }
  assert (dataMu (tv s') = false) as Hmu' by (by rewrite Htv).
  split.
  - by rewrite run_Get, Hget.
  - intros v Hv. rewrite run_Get, Hget by done. unfold GetSchemaValue. by rewrite Hv.
Qed.

(** C10: on a view whose [SchemaValueType] is set, a non-tombstone record
    whose payload does not decode is applied without an error reaching the
    caller: [handleMessage] returns, the failure is logged, and the key is
    mapped to the zero value of the configured type, whatever it held before
    (the decoder leaves its target, the fresh [reflect.New] value, as it was:
    see [Schema]). *)
Theorem decode_failure_stores_zero (m : Message) (e : error) (s : State) :
  dataMu (tv s) = false →
  SchemaValueTypeIsNil (options (tv s)) = false →
  Payload m ≠ [] →
  decode (Payload m) = inr e →
  ∃ s', run (handleMessage m) s = Done tt s' ∧
        tv_data s' = <[Key m := zeroValue]> (tv_data s) ∧
        run (Get (Key m)) s' = Done (Some zeroValue) s' ∧
        LogGetSchemaValueFailed e m ∈ logged (world s').
Proof.
  intros Hmu Hty Hp He. exists (handleMessage_state m s).
  split; [by apply run_handleMessage|].
  assert (tv_data (handleMessage_state m s) = <[Key m := zeroValue]> (tv_data s)) as Hd.
  { rewrite handleMessage_state_data. unfold apply_record, GetSchemaValue.
    by rewrite not_tombstone, He. }
  split_and!.
  - done.
  - rewrite run_Get by done. by rewrite Hd, lookup_insert_eq.
  - cbn. unfold decode_log, GetSchemaValue. rewrite not_tombstone, He by done.
    cbn. rewrite !elem_of_app, elem_of_cons. auto.
Qed.

(** C9: on a view whose [SchemaValueType] is set, when partition [p] is no
    longer in the topology, reconcile calls [p]'s cancellation handle, closes
    its reader and removes its entry, and purges nothing from the state
    store: a key keeps its value unless a record for that key is drained from
    a newly discovered partition in the same call; when no partition is new
    the state store is left as it was. *)
Theorem removed_partition_keeps_entries (s : State) (ps : list string) (p : string)
    (cr : cancelReader) :
  readersMu (tv s) = false →
  dataMu (tv s) = false →
  SchemaValueTypeIsNil (options (tv s)) = false →
  brokerPartitions (world s) (Topic (options (tv s))) = inl ps →
  p ∉ ps →
  cancelReaders (tv s) !! p = Some cr →
  ∃ r s', run partitionUpdateCheck s = Done r s' ∧
    cancelReaders (tv s') !! p = None ∧
    cancelFunc cr ∈ cancelled (world s') ∧
    reader cr ∈ closedReaders (world s') ∧
    data (tv s') = data (tv s) ∧
    (∀ k, (∀ q fs m, q ∈ ps → cancelReaders (tv s) !! q = None →
                     brokerBacklog (world s) q = inl fs → m ∈ backlog_messages fs →
                     Key m ≠ k) →
          tv_data s' !! k = tv_data s !! k) ∧
    ((∀ q, q ∈ ps → is_Some (cancelReaders (tv s) !! q)) → tv_data s' = tv_data s).
Proof.
  intros Hrmu Hdmu Hty Hps Hp Hreg.
  destruct (partitionUpdateCheck_state_loop2 s ps Hps) as (r & s5 & Heq & Hl).
  exists r, (set_readersMu false s5).
  split; [by rewrite run_partitionUpdateCheck, Heq|].
  pose proof (loop2_frame _ _ _ _ Hl) as Hfr.
  destruct (after_removal_cancelled ps s p cr Hreg Hp) as [Hc Hcl].
  split_and!.
  - cbn. destruct (cancelReaders (tv s5) !! p) as [cr'|] eqn:Hp5; [|done].
    destruct (loop2_registry_dom _ _ _ _ p Hl) as [Hq|Hq]; [by rewrite Hp5| |].
    + rewrite after_removal_registry, decide_False in Hq by done. by destruct Hq.
    + by apply partition_set_keys in Hq.
  - cbn. by rewrite (fr_cancelled _ _ Hfr).
  - cbn. by rewrite (fr_closedReaders _ _ Hfr).
  - cbn. by rewrite (fr_data _ _ Hfr).
  - intros k Hk. change (tv_data (set_readersMu false s5)) with (tv_data s5).
    rewrite (loop2_data _ _ _ _ k Hl); [done|].
    intros q fs m Hq Hnone Hbk Hm. apply partition_set_keys in Hq.
    rewrite after_removal_registry, decide_True in Hnone by done.
    by apply (Hk q fs m).
  - intros Hknown. change (tv_data (set_readersMu false s5)) with (tv_data s5).
    apply map_eq. intros k. rewrite (loop2_data _ _ _ _ k Hl); [done|].
    intros q fs m Hq Hnone _ _. apply partition_set_keys in Hq.
    rewrite after_removal_registry, decide_True in Hnone by done.
    destruct (Hknown q Hq) as [cr' Hcr']. congruence.
Qed.

(** C8, amended: after a reconcile that returned no error, reconcile is
    idempotent. Run again on that registry with the same partition set (the
    broker may list it in another order, the runtime may iterate in another
    order), it returns no error, leaves the registry as it is, opens, closes
    and cancels nothing, and leaves the state store alone. *)
Theorem reconcile_idempotent_after_success (s s1 s2 : State) (ps ps2 : list string) :
  readersMu (tv s) = false →
  dataMu (tv s) = false →
  brokerPartitions (world s) (Topic (options (tv s))) = inl ps →
  run partitionUpdateCheck s = Done None s1 →
  cancelReaders (tv s2) = cancelReaders (tv s1) →
  readersMu (tv s2) = false →
  dataMu (tv s2) = false →
  brokerPartitions (world s2) (Topic (options (tv s2))) = inl ps2 →
  (∀ q, q ∈ ps2 ↔ q ∈ ps) →
  ∃ s3, run partitionUpdateCheck s2 = Done None s3 ∧
        cancelReaders (tv s3) = cancelReaders (tv s2) ∧
        opened (world s3) = opened (world s2) ∧
        closedReaders (world s3) = closedReaders (world s2) ∧
        cancelled (world s3) = cancelled (world s2) ∧
        tv_data s3 = tv_data s2.
Proof.
  intros Hrmu Hdmu Hps Hrun Hreg Hrmu2 Hdmu2 Hps2 Hsame.
  pose proof (run_partitionUpdateCheck_returned s s1 None Hrmu Hdmu Hrun) as Hst.
  pose proof (partitionUpdateCheck_state_registry s ps s1 Hps Hst) as Hdom.
  assert (∀ q, is_Some (cancelReaders (tv s2) !! q) ↔ q ∈ ps2) as Hall.
  { intros q. rewrite Hreg, Hdom. by rewrite Hsame. }
  exists (set_rangeSeed (S (S (rangeSeed (world s2)))) s2).
  split; [|done].
  rewrite (run_partitionUpdateCheck_registered s2 ps2) by (try done; intros q; apply Hall).
  by rewrite (partitionUpdateCheck_state_noop s2 ps2).
Qed.


(** What is applied after [Entries] shows through the map it returned. *)
Lemma Entries_then_handleMessage (m : Message) (s : State) :
  dataMu (tv s) = false →
  SchemaValueTypeIsNil (options (tv s)) = false →
  ∃ s1 s2, run Entries s = Done (data (tv s)) s1 ∧
           run (handleMessage m) s1 = Done tt s2 ∧
           mapHeap (world s2) (data (tv s)) =
             apply_record m (mapHeap (world s1) (data (tv s))).
Proof.
  intros Hmu Hty. destruct (run_Entries s Hmu) as (s1 & Hrun & Htv & _).
  exists s1, (handleMessage_state m s1). split; [done|].
  split; [apply run_handleMessage; by rewrite Htv|].
  pose proof (handleMessage_state_data m s1) as Hd. unfold tv_data in Hd.
  rewrite handleMessage_state_tv, Htv in Hd. done.
Qed.

Lemma snapshot_steps (action : Listener) (kvs : list (string * Value)) (s : State) :
  (∀ k v, lfun action k v = None) →
  foldl_err (snapshot_step action) kvs s =
  (None, set_delivered
           (delivered (world s) ++ ((λ kv, (lid action, kv.1, Some kv.2)) <$> kvs)) s).
Proof.
  intros Hok. revert s. induction kvs as [|kv kvs IH]; intros s; cbn [foldl_err].
  - f_equal. by state_eq.
  - unfold snapshot_step at 1. rewrite Hok, IH. f_equal. by state_eq.
Qed.

(** With nothing else running, [ForEachAndListen] with a callback that never
    fails calls it once for every entry of the state store, in the order of
    the iteration, and registers it. *)
Lemma run_ForEachAndListen (action : Listener) (s : State) :
  listenersMu (tv s) = false →
  dataMu (tv s) = false →
  (∀ k v, lfun action k v = None) →
  ∃ s', run (ForEachAndListen action) s = Done None s' ∧
        listeners (tv s') = listeners (tv s) ++ [action] ∧
        tv_data s' = tv_data s ∧
        delivered (world s') =
          delivered (world s) ++
          ((λ kv, (lid action, kv.1, Some kv.2)) <$>
             range_map (rangeSeed (world s)) (tv_data s)).
Proof.
  intros Hlmu Hdmu Hok. unfold ForEachAndListen, ForEach. cbn. rewrite Hlmu. cbn.
  rewrite Hdmu. cbn.
  rewrite run_bind_assoc.
  rewrite (run_for_each_err (λ _, True) (snapshot_step action));
    [| by intros [k v] s' _ | done | done].
  rewrite snapshot_steps by done. cbn. eexists. split; [done|]. done.
Qed.

(** * Further properties of the methods *)

(** ** The state store *)

Lemma apply_record_same (m : Message) (mp : gmap string Value) :
  apply_record m mp !! Key m =
  if tombstone m then None else Some (GetSchemaValue m zeroValue).1.
Proof.
  unfold apply_record. destruct (tombstone m);
    [by rewrite lookup_delete_eq|by rewrite lookup_insert_eq].
Qed.

Lemma apply_records_lookup (k : string) (ms : list Message) (mp : gmap string Value) :
  foldl (λ mp' m, apply_record m mp') mp ms !! k = after_records k ms (mp !! k).
Proof.
  unfold after_records. induction ms as [|m ms IH] using rev_ind; [done|].
  rewrite foldl_app, filter_app. cbn [foldl].
  rewrite filter_cons, filter_nil. destruct (decide (Key m = k)) as [<-|Hne].
  - by rewrite last_snoc, apply_record_same.
  - by rewrite app_nil_r, apply_record_other.
Qed.

(** X1: on a view whose [SchemaValueType] is set, whatever records are
    applied, for whatever keys and with tombstones among them, the last
    record for a key decides what [Get] and [ContainsKey] return for it: nil
    and false after a tombstone, the decoded target and true otherwise; a key
    no record mentions keeps what it had. *)
Theorem last_record_decides (k : string) (ms : list Message) (s : State) :
  dataMu (tv s) = false →
  SchemaValueTypeIsNil (options (tv s)) = false →
  ∃ s', run (handleMessages ms) s = Done tt s' ∧
        run (Get k) s' = Done (after_records k ms (tv_data s !! k)) s' ∧
        run (ContainsKey k) s' =
          Done (bool_decide (is_Some (after_records k ms (tv_data s !! k)))) s'.
Proof.
  intros Hmu Hty. destruct (run_handleMessages ms s Hmu Hty) as (s' & Hrun & Htv & Hdata).
  assert (dataMu (tv s') = false) as Hmu' by (by rewrite Htv).
  exists s'. split; [done|].
  rewrite run_Get, run_ContainsKey by done.
  by rewrite Hdata, apply_records_lookup.
Qed.

Lemma apply_record_size (m : Message) (mp : gmap string Value) :
  size (apply_record m mp) = size_after m mp.
Proof.
  unfold apply_record, size_after. destruct (tombstone m).
  - rewrite map_size_delete. by destruct (mp !! Key m).
  - rewrite map_size_insert. by destruct (mp !! Key m).
Qed.

(** X2: on a view whose [SchemaValueType] is set, one record changes [Size]
    by at most one: a tombstone for a key that is present takes one off, a
    tombstone for an absent key changes nothing, a record for a new key adds
    one, a record for a present key changes nothing. *)
Theorem Size_after_record (m : Message) (s : State) :
  dataMu (tv s) = false →
  SchemaValueTypeIsNil (options (tv s)) = false →
  ∃ s', run (handleMessage m) s = Done tt s' ∧
        run Size s' = Done (size_after m (tv_data s)) s'.
Proof.
  intros Hmu Hty. exists (handleMessage_state m s). split; [by apply run_handleMessage|].
  rewrite run_Size by done. by rewrite handleMessage_state_data, apply_record_size.
Qed.

Lemma run_Keys (s : State) :
  dataMu (tv s) = false →
  run Keys s = Done (range_map (rangeSeed (world s)) (tv_data s)).*1
                 (set_rangeSeed (S (rangeSeed (world s))) s).
Proof. intros Hmu. unfold Keys. cbn. rewrite Hmu. cbn. f_equal. by state_eq. Qed.

(** X3: [Keys] returns every key of the state store exactly once: the list
    has no duplicate, as many elements as [Size] counts, and holds [k] exactly
    when [ContainsKey k] is true; the state store is left as it was. *)
Theorem Keys_are_the_keys (s : State) :
  dataMu (tv s) = false →
  ∃ ks s', run Keys s = Done ks s' ∧
           NoDup ks ∧
           run Size s' = Done (length ks) s' ∧
           (∀ k, k ∈ ks ↔ run (ContainsKey k) s' = Done true s') ∧
           tv s' = tv s ∧ tv_data s' = tv_data s.
Proof.
  intros Hmu. eexists _, _. split; [by apply run_Keys|].
  pose proof (range_map_perm _ (rangeSeed (world s)) (tv_data s)) as Hperm.
  split_and!.
  - rewrite Hperm. apply NoDup_fst_map_to_list.
  - rewrite run_Size by done. f_equal.
    change (tv_data (set_rangeSeed _ s)) with (tv_data s).
    by rewrite length_fmap, Hperm, length_map_to_list.
  - intros k. rewrite run_ContainsKey by done.
    change (tv_data (set_rangeSeed _ s)) with (tv_data s).
    rewrite range_map_keys. split.
    + intros Hk. by rewrite (bool_decide_eq_true_2 _ Hk).
    + intros Heq. injection Heq as Heq. by apply bool_decide_eq_true_1 in Heq.
  - done.
  - done.
Qed.

(** ** [ForEach] and [ForEachAndListen] *)

Lemma snapshot_steps_ok (action : Listener) (kvs : list (string * Value)) (s : State) :
  Forall (λ kv, lfun action kv.1 (Some kv.2) = None) kvs →
  foldl_err (snapshot_step action) kvs s =
  (None, set_delivered (delivered (world s) ++ calls action kvs) s).
Proof.
  intros Hok. revert s. induction Hok as [|kv kvs Hkv _ IH]; intros s; cbn [foldl_err].
  - f_equal. by state_eq.
  - unfold snapshot_step at 1. rewrite Hkv, IH. f_equal. unfold calls. by state_eq.
Qed.

Lemma snapshot_steps_fail (action : Listener) (pre post : list (string * Value))
    (k : string) (v : Value) (e : error) (s : State) :
  Forall (λ kv, lfun action kv.1 (Some kv.2) = None) pre →
  lfun action k (Some v) = Some e →
  foldl_err (snapshot_step action) (pre ++ (k, v) :: post) s =
  (Some e, set_delivered (delivered (world s) ++ calls action (pre ++ [(k, v)])) s).
Proof.
  intros Hok He. revert s. induction Hok as [|kv kvs Hkv _ IH]; intros s.
  - cbn. rewrite He. done.
  - cbn [app foldl_err]. unfold snapshot_step at 1. rewrite Hkv, IH. f_equal.
    unfold calls. by state_eq.
Qed.

Lemma run_ForEach (action : Listener) (s : State) :
  dataMu (tv s) = false →
  run (ForEach action) s =
  let res := foldl_err (snapshot_step action)
               (range_map (rangeSeed (world s)) (tv_data s))
               (set_rangeSeed (S (rangeSeed (world s))) (set_dataMu true s)) in
  Done res.1 (set_dataMu false res.2).
Proof.
  intros Hmu. unfold ForEach. cbn. rewrite Hmu. cbn.
  rewrite (run_for_each_err (λ _, True) (snapshot_step action));
    [| by intros [k v] s' _ | done | done].
  done.
Qed.

(** X4: [ForEach] stops at the first entry on which the action fails: it
    returns that error, the action has been called on the entries met up to
    and including that one and on no other, [dataMu] is released and the state
    store is as it was. *)
Theorem ForEach_stops_at_first_error (action : Listener)
    (pre post : list (string * Value)) (k : string) (v : Value) (e : error) (s : State) :
  dataMu (tv s) = false →
  range_map (rangeSeed (world s)) (tv_data s) = pre ++ (k, v) :: post →
  Forall (λ kv, lfun action kv.1 (Some kv.2) = None) pre →
  lfun action k (Some v) = Some e →
  ∃ s', run (ForEach action) s = Done (Some e) s' ∧
        delivered (world s') = delivered (world s) ++ calls action (pre ++ [(k, v)]) ∧
        dataMu (tv s') = false ∧
        tv_data s' = tv_data s.
Proof.
  intros Hmu Hkvs Hok He. rewrite run_ForEach by done. cbn zeta.
  rewrite Hkvs, (snapshot_steps_fail action pre post k v e) by done.
  eexists. split; [done|]. done.
Qed.

(** X5: when the action fails on no entry of the state store, [ForEach]
    returns no error and has called it exactly once on every entry: the calls
    are a permutation of the entries; the state store is as it was. *)
Theorem ForEach_visits_every_entry (action : Listener) (s : State) :
  dataMu (tv s) = false →
  (∀ k v, tv_data s !! k = Some v → lfun action k (Some v) = None) →
  ∃ kvs s', run (ForEach action) s = Done None s' ∧
            kvs ≡ₚ map_to_list (tv_data s) ∧
            delivered (world s') = delivered (world s) ++ calls action kvs ∧
            dataMu (tv s') = false ∧
            tv_data s' = tv_data s.
Proof.
  intros Hmu Hok. rewrite run_ForEach by done. cbn zeta.
  rewrite snapshot_steps_ok.
  - eexists _, _. split; [done|]. split; [apply range_map_perm|done].
  - apply Forall_forall. intros [k v] Hin. apply range_map_elem_of in Hin. by apply Hok.
Qed.

Lemma run_Lock {A : Type} (m : Mutex) (k : Prog A) (s : State) :
  held m s = false → run (Lock m >> k) s = run k (set_held m true s).
Proof. intros Hm. cbn. by rewrite Hm. Qed.

Lemma run_ForEachAndListen_fail (action : Listener)
    (pre post : list (string * Value)) (k : string) (v : Value) (e : error) (s : State) :
  listenersMu (tv s) = false →
  dataMu (tv s) = false →
  range_map (rangeSeed (world s)) (tv_data s) = pre ++ (k, v) :: post →
  Forall (λ kv, lfun action kv.1 (Some kv.2) = None) pre →
  lfun action k (Some v) = Some e →
  run (ForEachAndListen action) s =
  Done (Some e)
    (set_delivered (delivered (world s) ++ calls action (pre ++ [(k, v)]))
       (set_rangeSeed (S (rangeSeed (world s))) s)).
Proof.
  intros Hlmu Hdmu Hkvs Hok He. unfold ForEachAndListen.
  rewrite run_Lock by done. rewrite run_bind, run_ForEach by done. cbn zeta.
  change (tv_data (set_held listenersMutex true s)) with (tv_data s).
  change (rangeSeed (world (set_held listenersMutex true s))) with (rangeSeed (world s)).
  rewrite Hkvs, (snapshot_steps_fail action pre post k v e) by done.
  cbn. f_equal. by state_eq.
Qed.

Lemma run_ForEachAndListen_ok (action : Listener) (s : State) :
  listenersMu (tv s) = false →
  dataMu (tv s) = false →
  (∀ k v, tv_data s !! k = Some v → lfun action k (Some v) = None) →
  run (ForEachAndListen action) s =
  Done None
    (set_listeners (listeners (tv s) ++ [action])
       (set_delivered
          (delivered (world s) ++
           calls action (range_map (rangeSeed (world s)) (tv_data s)))
          (set_rangeSeed (S (rangeSeed (world s))) s))).
Proof.
  intros Hlmu Hdmu Hok. unfold ForEachAndListen.
  rewrite run_Lock by done. rewrite run_bind, run_ForEach by done. cbn zeta.
  change (tv_data (set_held listenersMutex true s)) with (tv_data s).
  change (rangeSeed (world (set_held listenersMutex true s))) with (rangeSeed (world s)).
  rewrite snapshot_steps_ok.
  - cbn. f_equal. by state_eq.
  - apply Forall_forall. intros [k v] Hin. apply range_map_elem_of in Hin. by apply Hok.
Qed.

(** X6: when the action fails during the snapshot, [ForEachAndListen] returns
    that error and does not register the action: the listeners are as they
    were, both mutexes are released, and the action has been called on the
    entries met up to the failing one only. *)
Theorem ForEachAndListen_error_does_not_register (action : Listener)
    (pre post : list (string * Value)) (k : string) (v : Value) (e : error) (s : State) :
  listenersMu (tv s) = false →
  dataMu (tv s) = false →
  range_map (rangeSeed (world s)) (tv_data s) = pre ++ (k, v) :: post →
  Forall (λ kv, lfun action kv.1 (Some kv.2) = None) pre →
  lfun action k (Some v) = Some e →
  ∃ s', run (ForEachAndListen action) s = Done (Some e) s' ∧
        listeners (tv s') = listeners (tv s) ∧
        listenersMu (tv s') = false ∧
        dataMu (tv s') = false ∧
        delivered (world s') = delivered (world s) ++ calls action (pre ++ [(k, v)]).
Proof.
  intros Hlmu Hdmu Hkvs Hok He.
  rewrite (run_ForEachAndListen_fail action pre post k v e) by done.
  eexists. split; [done|]. done.
Qed.

(** ** Notification *)

Lemma run_handleMessages_state (ms : list Message) (s : State) :
  dataMu (tv s) = false →
  SchemaValueTypeIsNil (options (tv s)) = false →
  run (handleMessages ms) s = Done tt (foldl (λ s' m, handleMessage_state m s') s ms).
Proof.
  revert s. induction ms as [|m ms IH]; intros s Hmu Hty; [done|].
  unfold handleMessages in *. cbn [for_each foldl].
  rewrite run_handleMessage_bind by done. by apply IH.
Qed.

Lemma handleMessages_state_tv (ms : list Message) (s : State) :
  tv (foldl (λ s' m, handleMessage_state m s') s ms) = tv s.
Proof. revert s. induction ms as [|m ms IH]; intros s; [done|]. cbn. by rewrite IH. Qed.

Lemma handleMessages_state_delivered (ms : list Message) (s : State) :
  delivered (world (foldl (λ s' m, handleMessage_state m s') s ms)) =
  delivered (world s) ++
  concat ((λ m, notify_delivered m (target m) (listeners (tv s))) <$> ms).
Proof.
  revert s. induction ms as [|m ms IH]; intros s; cbn.
  - by rewrite app_nil_r.
  - rewrite IH. cbn. by rewrite app_assoc.
Qed.

Lemma handleMessages_state_logged_mono (ms : list Message) (s : State) (x : LogEntry) :
  x ∈ logged (world s) →
  x ∈ logged (world (foldl (λ s' m, handleMessage_state m s') s ms)).
Proof.
  revert s. induction ms as [|m ms IH]; intros s Hx; [done|].
  cbn. apply IH. by apply handleMessage_state_logged.
Qed.

Lemma handleMessage_state_listener_logged (m : Message) (l : Listener) (e : error)
    (s : State) :
  l ∈ listeners (tv s) →
  lfun l (Key m) (Some (target m)) = Some e →
  LogListenerFailed m e ∈ logged (world (handleMessage_state m s)).
Proof.
  intros Hl He. cbn. rewrite !elem_of_app. right. right.
  unfold notify_logged. apply list_elem_of_omap. exists l. split; [done|].
  by rewrite He.
Qed.

(** X7: on a view whose [SchemaValueType] is set, every record is notified
    to every registered listener exactly once, in registration order,
    whatever the listeners return: a listener that fails is logged, is still
    registered afterwards, and does not keep the listeners after it from
    being called. *)
Theorem every_listener_gets_every_record (ms : list Message) (s : State) :
  dataMu (tv s) = false →
  SchemaValueTypeIsNil (options (tv s)) = false →
  ∃ s', run (handleMessages ms) s = Done tt s' ∧
        listeners (tv s') = listeners (tv s) ∧
        delivered (world s') =
          delivered (world s) ++
          concat ((λ m, (λ l, (lid l, Key m, Some (target m))) <$> listeners (tv s)) <$> ms) ∧
        ∀ m l e, m ∈ ms → l ∈ listeners (tv s) →
                 lfun l (Key m) (Some (target m)) = Some e →
                 LogListenerFailed m e ∈ logged (world s').
Proof.
  intros Hmu Hty. eexists. split; [by apply run_handleMessages_state|].
  split; [by rewrite handleMessages_state_tv|].
  split; [apply handleMessages_state_delivered|].
  intros m l e Hm Hl He. clear Hmu Hty. revert s Hl.
  induction ms as [|m' ms IH]; intros s Hl; [by apply elem_of_nil in Hm|].
  cbn [foldl]. apply elem_of_cons in Hm as [->|Hm].
  - apply handleMessages_state_logged_mono.
    by apply (handleMessage_state_listener_logged m' l e).
  - by apply IH.
Qed.

(** X8: on a view whose [SchemaValueType] is set and with no call
    overlapping it, [ForEachAndListen] with an action that fails on no entry
    of the state store delivers to the action every entry once and then,
    being registered last, every record applied afterwards once, after the
    listeners registered before it. *)
Theorem ForEachAndListen_then_records (action : Listener) (ms : list Message) (s : State) :
  listenersMu (tv s) = false →
  dataMu (tv s) = false →
  SchemaValueTypeIsNil (options (tv s)) = false →
  (∀ k v, tv_data s !! k = Some v → lfun action k (Some v) = None) →
  ∃ kvs s', run (ForEachAndListen action >> handleMessages ms) s = Done tt s' ∧
            kvs ≡ₚ map_to_list (tv_data s) ∧
            listeners (tv s') = listeners (tv s) ++ [action] ∧
            delivered (world s') =
              delivered (world s) ++ calls action kvs ++
              concat ((λ m, (λ l, (lid l, Key m, Some (target m))) <$>
                              (listeners (tv s) ++ [action])) <$> ms).
Proof.
  intros Hlmu Hdmu Hty Hok. rewrite run_bind, run_ForEachAndListen_ok by done.
  rewrite run_handleMessages_state by done.
  eexists _, _. split; [done|]. split; [apply range_map_perm|].
  rewrite handleMessages_state_tv, handleMessages_state_delivered. cbn.
  split; [done|]. by rewrite app_assoc.
Qed.

(** ** [Close] and the periodic check *)

(** X9: the first [Close] closes the reader of every registered entry exactly
    once (the closed readers are those of a permutation of the registry),
    marks the view closed and closes [closedCh]; it releases [readersMu] and
    leaves the registry and the state store as they were. *)
Theorem Close_closes_every_reader_once (s : State) :
  readersMu (tv s) = false →
  closed (tv s) = false →
  ∃ crs s', run Close s = Done tt s' ∧
            crs ≡ₚ map_to_list (cancelReaders (tv s)) ∧
            closedReaders (world s') = closedReaders (world s) ++ ((λ kv, reader kv.2) <$> crs) ∧
            closed (tv s') = true ∧ closedCh (tv s') = true ∧
            readersMu (tv s') = false ∧
            cancelReaders (tv s') = cancelReaders (tv s) ∧
            tv_data s' = tv_data s.
Proof.
  intros Hmu Hc. rewrite run_Close by done. unfold Close_state. rewrite Hc.
  eexists _, _. split; [done|]. split; [apply range_map_perm|]. done.
Qed.

Lemma Close_state_readersMu (s : State) :
  readersMu (tv (Close_state s)) = readersMu (tv s).
Proof. unfold Close_state. by destruct (closed (tv s)). Qed.

(** X10: [Close] is idempotent: in the state a [Close] leaves, and in any
    state where the view is already closed, another [Close] returns and
    changes nothing. *)
Theorem Close_again_changes_nothing (s : State) :
  readersMu (tv s) = false →
  ∃ s', run Close s = Done tt s' ∧
        run Close s' = Done tt s' ∧
        (closed (tv s) = true → s' = s).
Proof.
  intros Hmu. exists (Close_state s). split; [by apply run_Close|]. split.
  - rewrite run_Close by (by rewrite Close_state_readersMu).
    by rewrite (Close_state_again (Close_state s)) by apply Close_state_closed.
  - apply Close_state_again.
Qed.

(** What [partitionUpdateCheck] leaves of the view, when it finds [readersMu]
    free. *)
Lemma partitionUpdateCheck_state_kept (s : State) :
  readersMu (tv s) = false →
  view_kept s (partitionUpdateCheck_state s).2.
Proof.
  intros Hmu.
  destruct (brokerPartitions (world s) (Topic (options (tv s)))) as [ps|e] eqn:Hps.
  - destruct (partitionUpdateCheck_state_loop2 s ps Hps) as (r & s5 & -> & Hl).
    destruct (loop2_frame _ _ _ _ Hl). split; cbn in *; try congruence. auto.
  - unfold partitionUpdateCheck_state. rewrite Hps. by split.
Qed.

(** X11: on a view whose [SchemaValueType] is set, [partitionUpdateCheck]
    always returns when it finds the mutexes free, with or without an error,
    and has released them: [readersMu] and [dataMu] are free afterwards; the
    listeners, the closed flag and [closedCh] are as they were. *)
Theorem partitionUpdateCheck_releases_the_mutexes (s : State) :
  readersMu (tv s) = false →
  dataMu (tv s) = false →
  SchemaValueTypeIsNil (options (tv s)) = false →
  ∃ r s', run partitionUpdateCheck s = Done r s' ∧
          readersMu (tv s') = false ∧ dataMu (tv s') = false ∧
          listenersMu (tv s') = listenersMu (tv s) ∧
          listeners (tv s') = listeners (tv s) ∧
          closed (tv s') = closed (tv s) ∧
          closedCh (tv s') = closedCh (tv s).
Proof.
  intros Hrmu Hdmu Hty. rewrite run_partitionUpdateCheck by done.
  destruct (partitionUpdateCheck_state_kept s Hrmu).
  eexists _, _. split; [done|]. split_and!; congruence.
Qed.

(** One round of the periodic check. *)
Lemma run_periodic_round (rounds : nat) (s : State) :
  readersMu (tv s) = false →
  dataMu (tv s) = false →
  SchemaValueTypeIsNil (options (tv s)) = false →
  run (periodicPartitionUpdateCheck (S rounds)) s =
  let res := partitionUpdateCheck_state s in
  let s1 := match res.1 with
            | Some e => set_logged (logged (world res.2) ++ [LogPartitionCheckFailed e]) res.2
            | None => res.2
            end in
  if closedCh (tv s) then Done true s1
  else run (periodicPartitionUpdateCheck rounds) s1.
Proof.
  intros Hrmu Hdmu Hty. cbn [periodicPartitionUpdateCheck].
  rewrite run_bind, run_partitionUpdateCheck by done.
  destruct (partitionUpdateCheck_state_kept s Hrmu) as [_ _ _ _ _ _ _ Hch _ _ _ _].
  destruct (partitionUpdateCheck_state s) as [[e|] s']; cbn in *;
    rewrite Hch; by destruct (closedCh (tv s)).
Qed.


(** X13: on a view whose [SchemaValueType] is set, as long as [closedCh] is
    open the periodic check goes on, whatever its rounds return: after any
    number of rounds it has not returned, [closedCh] is still open and the
    mutexes are free for the next round. *)
Theorem periodic_check_goes_on (rounds : nat) (s : State) :
  readersMu (tv s) = false →
  dataMu (tv s) = false →
  SchemaValueTypeIsNil (options (tv s)) = false →
  closedCh (tv s) = false →
  ∃ s', run (periodicPartitionUpdateCheck rounds) s = Done false s' ∧
        closedCh (tv s') = false ∧
        readersMu (tv s') = false ∧ dataMu (tv s') = false.
Proof.
  revert s. induction rounds as [|rounds IH]; intros s Hrmu Hdmu Hty Hch.
  - by exists s.
  - rewrite run_periodic_round by done. cbn zeta. rewrite Hch.
    destruct (partitionUpdateCheck_state_kept s Hrmu).
    destruct (partitionUpdateCheck_state s) as [[e|] s1]; cbn in *;
      apply IH; cbn; congruence.
Qed.

(** X14: when the partitions of the topic cannot be listed,
    [partitionUpdateCheck] returns the error wrapped with the topic name and
    changes nothing, without waiting for [readersMu]; the periodic check logs
    one line for each such round and goes on. *)
Theorem discovery_failure_is_logged (rounds : nat) (e : error) (s : State) :
  brokerPartitions (world s) (Topic (options (tv s))) = inr e →
  closedCh (tv s) = false →
  let err := Errorf "tv.client.TopicPartitions(%s) failed: %w" (Topic (options (tv s))) e in
  run partitionUpdateCheck s = Done (Some err) s ∧
  run (periodicPartitionUpdateCheck rounds) s =
    Done false
      (set_logged (logged (world s) ++ replicate rounds (LogPartitionCheckFailed err)) s).
Proof.
  intros He Hch err. split.
  - unfold partitionUpdateCheck. cbn. by rewrite He.
  - revert s He Hch err. induction rounds as [|rounds IH]; intros s He Hch err.
    + cbn. f_equal. by state_eq.
    + cbn [periodicPartitionUpdateCheck]. rewrite run_bind.
      replace (run partitionUpdateCheck s) with (Done (Some err) s)
        by (unfold partitionUpdateCheck; cbn; by rewrite He).
      cbn. rewrite Hch.
      rewrite (IH (set_logged (logged (world s) ++ [LogPartitionCheckFailed err]) s))
        by done.
      f_equal. cbn. rewrite <- app_assoc. by state_eq.
Qed.

(** ** More on [partitionUpdateCheck] *)

(** X15: after a reconcile that returned no error the registry holds an entry
    for every partition of the topic and for nothing else. *)
Theorem registry_matches_the_partitions (s s' : State) (ps : list string) :
  readersMu (tv s) = false →
  dataMu (tv s) = false →
  brokerPartitions (world s) (Topic (options (tv s))) = inl ps →
  run partitionUpdateCheck s = Done None s' →
  ∀ q, is_Some (cancelReaders (tv s') !! q) ↔ q ∈ ps.
Proof.
  intros Hrmu Hdmu Hps Hrun. apply (partitionUpdateCheck_state_registry s ps s' Hps).
  by apply run_partitionUpdateCheck_returned.
Qed.

Lemma stale_gone (ps : list string) (seed : nat) (m : gmap string cancelReader) :
  stale (partition_set ps) (range_map seed m) ≡ₚ
  filter (λ kv, kv.1 ∉ ps) (map_to_list m).
Proof.
  unfold stale. rewrite (range_map_perm _ seed m).
  erewrite list_filter_iff; [done|]. intros kv. cbn.
  rewrite partition_set_lookup. by destruct (decide (kv.1 ∈ ps)).
Qed.

(** X16: on a view whose [SchemaValueType] is set, reconcile closes and
    cancels the entries of the partitions that are gone, each once and no
    other: the readers it closes and the cancellation handles it calls are
    those of the registry entries whose partition the topic no longer has,
    whether or not it then fails to open a reader. *)
Theorem only_gone_partitions_are_closed (s : State) (ps : list string) :
  readersMu (tv s) = false →
  dataMu (tv s) = false →
  SchemaValueTypeIsNil (options (tv s)) = false →
  brokerPartitions (world s) (Topic (options (tv s))) = inl ps →
  ∃ r s' gone,
    run partitionUpdateCheck s = Done r s' ∧
    gone ≡ₚ filter (λ kv, kv.1 ∉ ps) (map_to_list (cancelReaders (tv s))) ∧
    closedReaders (world s') = closedReaders (world s) ++ ((λ kv, reader kv.2) <$> gone) ∧
    cancelled (world s') = cancelled (world s) ++ ((λ kv, cancelFunc kv.2) <$> gone).
Proof.
  intros Hrmu Hdmu Hty Hps.
  destruct (partitionUpdateCheck_state_loop2 s ps Hps) as (r & s5 & Heq & Hl).
  pose proof (loop2_frame _ _ _ _ Hl) as Hfr.
  eexists r, (set_readersMu false s5), _.
  split; [by rewrite run_partitionUpdateCheck, Heq|].
  split; [apply (stale_gone ps (rangeSeed (world s)))|].
  cbn. rewrite (fr_closedReaders _ _ Hfr), (fr_cancelled _ _ Hfr). done.
Qed.

Lemma loop2_opened_keys l s r s' :
  loop2 l s r s' →
  ∃ new, opened (world s') = opened (world s) ++ new ∧
    NoDup new.*1 ∧
    (∀ q, q ∈ new.*1 → q ∈ l.*1 ∧ cancelReaders (tv s) !! q = None) ∧
    (r = None → ∀ q, q ∈ l.*1 → cancelReaders (tv s) !! q = None → q ∈ new.*1).
Proof.
  induction 1 as [s|kv l s cr r s' Hreg Hl IH|kv l s e Hreg Hopen
    |kv l s fs r s' Hreg Hopen Hl IH].
  - exists []. split; [by rewrite app_nil_r|]. split; [constructor|]. split.
    + intros q Hq. by apply elem_of_nil in Hq.
    + intros _ q Hq. by apply elem_of_nil in Hq.
  - destruct IH as (new & Hop & Hnd & Hin & Hall). exists new. split_and!; try done.
    + intros q Hq. destruct (Hin q Hq). split; [by apply keys_further|done].
    + intros Hr q Hq Hnone. rewrite fmap_cons in Hq.
      apply elem_of_cons in Hq as [->|Hq]; [congruence|by apply Hall].
  - exists []. split; [by rewrite app_nil_r|]. split; [constructor|]. split.
    + intros q Hq. by apply elem_of_nil in Hq.
    + done.
  - destruct IH as (new & Hop & Hnd & Hin & Hall).
    exists ((kv.1, nextHandle (world s)) :: new). split_and!.
    + by rewrite Hop, open_state_opened, <- app_assoc.
    + rewrite fmap_cons. apply NoDup_cons. split; [|done]. cbn.
      intros Hq. apply Hin in Hq as [_ Hnone].
      by rewrite open_state_registry, lookup_insert_eq in Hnone.
    + intros q Hq. rewrite fmap_cons in Hq. apply elem_of_cons in Hq as [->|Hq].
      * split; [apply (keys_here kv)|done].
      * destruct (Hin q Hq) as [Hql Hnone]. split; [by apply keys_further|].
        rewrite open_state_registry in Hnone.
        by apply lookup_insert_None in Hnone as [Hnone _].
    + intros Hr q Hq Hnone. rewrite !fmap_cons in *. cbn.
      apply elem_of_cons in Hq as [->|Hq]; [by left|].
      destruct (decide (q = kv.1)) as [->|Hne]; [by left|]. right.
      apply Hall; [done|done|]. by rewrite open_state_registry, lookup_insert_ne.
Qed.

(** X17: on a view whose [SchemaValueType] is set, reconcile opens at most
    one reader per partition and none for a partition that has an entry: the
    readers opened by one call are for distinct partitions of the topic that
    were not registered; when the call returns no error they are for exactly
    those partitions. *)
Theorem one_reader_per_new_partition (s : State) (ps : list string) :
  readersMu (tv s) = false →
  dataMu (tv s) = false →
  SchemaValueTypeIsNil (options (tv s)) = false →
  brokerPartitions (world s) (Topic (options (tv s))) = inl ps →
  ∃ r s' new,
    run partitionUpdateCheck s = Done r s' ∧
    opened (world s') = opened (world s) ++ new ∧
    NoDup new.*1 ∧
    (∀ q, q ∈ new.*1 → q ∈ ps ∧ cancelReaders (tv s) !! q = None) ∧
    (r = None → ∀ q, q ∈ ps → cancelReaders (tv s) !! q = None → q ∈ new.*1).
Proof.
  intros Hrmu Hdmu Hty Hps.
  destruct (partitionUpdateCheck_state_loop2 s ps Hps) as (r & s5 & Heq & Hl).
  destruct (loop2_opened_keys _ _ _ _ Hl) as (new & Hop & Hnd & Hin & Hall).
  exists r, (set_readersMu false s5), new.
  split; [by rewrite run_partitionUpdateCheck, Heq|]. split_and!; try done.
  - intros q Hq. destruct (Hin q Hq) as [Hql Hnone].
    apply partition_set_keys in Hql.
    by rewrite after_removal_registry, decide_True in Hnone.
  - intros Hr q Hq Hnone. apply Hall; [done|by apply partition_set_keys|].
    by rewrite after_removal_registry, decide_True.
Qed.

(** ** The tailing loop *)

Arguments reader_is_done : simpl never.

Lemma run_watch_step (topic : string) (f : Fetch) (fs : list Fetch) (s : State) :
  dataMu (tv s) = false →
  SchemaValueTypeIsNil (options (tv s)) = false →
  reader_is_done (ferr f) = false →
  run (watchReaderForNewMessages topic (f :: fs)) s =
  run (watchReaderForNewMessages topic fs) (drain_step topic f s).
Proof.
  intros Hmu Hty Hf. cbn [watchReaderForNewMessages]. rewrite !run_bind. cbn.
  rewrite Hf. unfold drain_step.
  destruct (ferr f) as [e|], (fmsg f) as [m|]; cbn;
    rewrite ?run_handleMessage_bind by done; done.
Qed.

Lemma run_watch_going (topic : string) (pre rest : list Fetch) (s : State) :
  dataMu (tv s) = false →
  SchemaValueTypeIsNil (options (tv s)) = false →
  Forall (λ f, reader_is_done (ferr f) = false) pre →
  run (watchReaderForNewMessages topic (pre ++ rest)) s =
  run (watchReaderForNewMessages topic rest) (drain_state topic pre s).
Proof.
  intros Hmu Hty Hpre. revert s Hmu Hty.
  induction Hpre as [|f pre Hf _ IH]; intros s Hmu Hty; [done|].
  cbn [app]. rewrite run_watch_step by done.
  rewrite IH by (by rewrite drain_step_tv). done.
Qed.

(** X18: on a view whose [SchemaValueType] is set, as long as no fetch ends
    with [ConsumerClosed] or [context.Canceled], the tailing loop does what
    the synchronous drain does: it applies the records in the order the
    reader returns them, logs every fetch error and goes on; when the reader
    has nothing more it is waiting, not returned. *)
Theorem tailing_loop_applies_in_order (topic : string) (fs : list Fetch) (s : State) :
  dataMu (tv s) = false →
  SchemaValueTypeIsNil (options (tv s)) = false →
  Forall (λ f, reader_is_done (ferr f) = false) fs →
  ∃ s', run (watchReaderForNewMessages topic fs) s = Done false s' ∧
        run (drain topic fs) s = Done tt s' ∧
        tv_data s' = foldl (λ mp m, apply_record m mp) (tv_data s) (backlog_messages fs) ∧
        ∀ f e, f ∈ fs → ferr f = Some e → LogReadNextFailed topic e ∈ logged (world s').
Proof.
  intros Hmu Hty Hfs. exists (drain_state topic fs s). split_and!.
  - rewrite <- (app_nil_r fs) at 1. by rewrite run_watch_going.
  - pose proof (run_drain topic fs (Ret tt) s Hmu Hty) as Hd. rewrite run_bind in Hd.
    cbn in Hd. destruct (run (drain topic fs) s) as [[] s1|s1|s1]; [|done|done].
    cbn in Hd. by injection Hd as ->.
  - apply drain_state_data.
  - intros f e. apply drain_state_logged.
Qed.

(** X19: on a view whose [SchemaValueType] is set, the tailing loop returns
    at the first fetch whose error is a [ConsumerClosed] of the client or
    [context.Canceled], wrapped or not: the error is logged, a message
    returned with it is not applied, and the reader is not asked again. *)
Theorem tailing_loop_stops_when_done (topic : string) (pre post : list Fetch)
    (f : Fetch) (s : State) :
  dataMu (tv s) = false →
  SchemaValueTypeIsNil (options (tv s)) = false →
  Forall (λ f', reader_is_done (ferr f') = false) pre →
  reader_is_done (ferr f) = true →
  ∃ e s', ferr f = Some e ∧
          run (watchReaderForNewMessages topic (pre ++ f :: post)) s = Done true s' ∧
          run (watchReaderForNewMessages topic (pre ++ [f])) s = Done true s' ∧
          tv_data s' =
            foldl (λ mp m, apply_record m mp) (tv_data s) (backlog_messages pre) ∧
          LogReadNextFailed topic e ∈ logged (world s').
Proof.
  intros Hmu Hty Hpre Hf. destruct (ferr f) as [e|] eqn:He; [|done].
  exists e. eexists. split; [done|].
  assert (∀ rest, run (watchReaderForNewMessages topic (pre ++ f :: rest)) s =
    Done true (set_logged (logged (world (drain_state topic pre s)) ++
                           [LogReadNextFailed topic e]) (drain_state topic pre s))) as Hrun.
  { intros rest. rewrite run_watch_going by done.
    cbn [watchReaderForNewMessages]. rewrite !run_bind. cbn. rewrite He. cbn.
    by rewrite Hf. }
  split; [apply Hrun|]. split; [apply Hrun|]. split.
  - change (tv_data (set_logged _ ?s0)) with (tv_data s0). apply drain_state_data.
  - cbn. apply elem_of_app. right. by apply list_elem_of_singleton.
Qed.

(** ** Construction *)

Lemma newTableView_run (opts : TableViewOptions) (w : World) :
  Topic opts ≠ "" →
  SchemaValueTypeIsNil opts = false →
  ∃ opts', Topic opts' = Topic opts ∧
           SchemaValueTypeIsNil opts' = false ∧
           AutoUpdatePartitionsInterval opts' ≠ 0%Z ∧
           newTableView opts w =
           match partitionUpdateCheck_state (fresh_view opts' w) with
           | (None, s) => Returns (inl s)
           | (Some err, _) => Returns (inr err)
           end.
Proof.
  intros Htopic Hty. unfold newTableView.
  rewrite bool_decide_eq_false_2 by done. rewrite Hty, andb_false_r.
  set (opts' := if bool_decide (AutoUpdatePartitionsInterval opts = 0%Z) then _ else opts).
  assert (SchemaValueTypeIsNil opts' = false) as Hty'
    by (subst opts'; by case_bool_decide).
  exists opts'. split_and!.
  - subst opts'. by case_bool_decide.
  - done.
  - subst opts'. by case_bool_decide.
  - rewrite run_partitionUpdateCheck by done.
    by destruct (partitionUpdateCheck_state (fresh_view opts' w)) as [[e|] s].
Qed.

(** X20: with a topic name and a [SchemaValueType] that is set,
    [newTableView] always returns. When the partitions cannot be listed it
    returns that error, wrapped. Otherwise it returns either a reader-open
    error for a partition of the topic, or a view with an entry for exactly
    the partitions of the topic, no listener, free mutexes, not closed, and a
    refresh interval that is not zero. *)
Theorem newTableView_result (opts : TableViewOptions) (w : World) :
  Topic opts ≠ "" →
  SchemaValueTypeIsNil opts = false →
  match brokerPartitions w (Topic opts) with
  | inr e =>
      newTableView opts w =
      Returns (inr (Errorf "tv.client.TopicPartitions(%s) failed: %w" (Topic opts) e))
  | inl ps =>
      ∃ res, newTableView opts w = Returns res ∧
        match res with
        | inl s =>
            readersMu (tv s) = false ∧ dataMu (tv s) = false ∧
            listenersMu (tv s) = false ∧ listeners (tv s) = [] ∧
            closed (tv s) = false ∧ closedCh (tv s) = false ∧
            Topic (options (tv s)) = Topic opts ∧
            AutoUpdatePartitionsInterval (options (tv s)) ≠ 0%Z ∧
            ∀ q, is_Some (cancelReaders (tv s) !! q) ↔ q ∈ ps
        | inr err =>
            ∃ q e, q ∈ ps ∧ brokerBacklog w q = inr e ∧
                   err = Errorf "create new reader failed for %s: %w" q e
        end
  end.
Proof.
  intros Htopic Hty.
  destruct (newTableView_run opts w Htopic Hty) as (opts' & Ht & _ & Hi & ->).
  set (s0 := fresh_view opts' w).
  assert (brokerPartitions (world s0) (Topic (options (tv s0))) =
          brokerPartitions w (Topic opts)) as Hbp by (cbn; by rewrite Ht).
  destruct (brokerPartitions w (Topic opts)) as [ps|e] eqn:Hps.
  - destruct (partitionUpdateCheck_state_loop2 s0 ps Hbp) as (r & s5 & Heq & Hl).
    pose proof (partitionUpdateCheck_state_kept s0 eq_refl) as Hk.
    pose proof (partitionUpdateCheck_state_registry s0 ps (set_readersMu false s5) Hbp) as Hr.
    rewrite Heq in *. destruct r as [err|].
    + exists (inr err). split; [done|].
      destruct (loop2_failure _ _ _ _ Hl) as (q & e & Hq & _ & Hbk & ->).
      apply partition_set_keys in Hq. by exists q, e.
    + exists (inl (set_readersMu false s5)). split; [done|].
      destruct Hk. cbn in *. split_and!; try congruence. by apply Hr.
  - unfold partitionUpdateCheck_state. rewrite Hbp. cbn. by rewrite Ht.
Qed.

(** X21: a view built with a [SchemaValueType] that is set, on a topic with a
    single partition whose reader opens, holds the backlog of that partition
    folded in order: for every key, [Get] returns what the last backlog
    record for the key left, and nil for a key the backlog does not mention;
    one reader was opened. *)
Theorem newTableView_single_partition (opts : TableViewOptions) (w : World)
    (p : string) (fs : list Fetch) :
  Topic opts ≠ "" →
  SchemaValueTypeIsNil opts = false →
  brokerPartitions w (Topic opts) = inl [p] →
  brokerBacklog w p = inl fs →
  ∃ s, newTableView opts w = Returns (inl s) ∧
       opened (world s) = opened w ++ [(p, nextHandle w)] ∧
       tv_data s = foldl (λ mp m, apply_record m mp) ∅ (backlog_messages fs) ∧
       ∀ k, run (Get k) s = Done (after_records k (backlog_messages fs) None) s.
Proof.
  intros Htopic Hty Hps Hfs.
  destruct (newTableView_run opts w Htopic Hty) as (opts' & Ht & _ & Hi & ->).
  set (s0 := fresh_view opts' w).
  assert (brokerPartitions (world s0) (Topic (options (tv s0))) = inl [p]) as Hbp
    by (cbn; by rewrite Ht).
  destruct (partitionUpdateCheck_state_loop2 s0 [p] Hbp) as (r & s5 & Heq & Hl).
  rewrite Heq.
  rewrite after_removal_noop in Hl
    by (intros q [cr Hq]; cbn in Hq; by rewrite lookup_empty in Hq).
  assert (range_map (S (rangeSeed (world s0))) (partition_set [p]) = [(p, true)]) as Hrange.
  { apply Permutation_singleton_r. rewrite range_map_perm.
    unfold partition_set. cbn. by rewrite insert_empty, map_to_list_singleton. }
  rewrite Hrange in Hl.
  set (s4 := set_rangeSeed _ (set_readersMu true s0)) in Hl.
  assert (r = None ∧ s5 = open_state p fs s4) as [-> ->].
  { inversion Hl as [|kv l s1 cr r1 s1' Hreg Hl'|kv l s1 e Hreg Hopen
      |kv l s1 fs' r1 s1' Hreg Hopen Hl']; subst; cbn in *.
    - by rewrite lookup_empty in Hreg.
    - congruence.
    - assert (fs' = fs) as -> by congruence. by inversion Hl'. }
  assert (tv_data (set_readersMu false (open_state p fs s4)) =
          foldl (λ mp m, apply_record m mp) ∅ (backlog_messages fs)) as Hdata.
  { change (tv_data (set_readersMu false ?s1)) with (tv_data s1).
    rewrite open_state_data. f_equal. unfold tv_data. cbn. by rewrite fn_lookup_insert. }
  eexists. split; [done|]. split_and!.
  - change (opened (world (set_readersMu false ?s1))) with (opened (world s1)).
    by rewrite open_state_opened.
  - done.
  - intros k. rewrite run_Get.
    + by rewrite Hdata, apply_records_lookup, lookup_empty.
    + change (dataMu (tv (set_readersMu false ?s1))) with (dataMu (tv s1)).
      by rewrite open_state_dataMu.
Qed.

(** ** After [IsEmpty] *)

(** X22: a call of [IsEmpty] on a view whose [dataMu] is free leaves [dataMu]
    held for ever: every later operation on the state store, reads and
    [handleMessage] alike, waits for it and does not return; the state store
    itself is as it was. *)
Theorem IsEmpty_blocks_the_state_store (s : State) :
  dataMu (tv s) = false →
  ∃ s', run IsEmpty s = Blocked s' ∧
        dataMu (tv s') = true ∧ tv_data s' = tv_data s ∧
        run IsEmpty s' = Blocked s' ∧
        run Size s' = Blocked s' ∧
        (∀ k, run (Get k) s' = Blocked s') ∧
        (∀ k, run (ContainsKey k) s' = Blocked s') ∧
        run Keys s' = Blocked s' ∧
        run Entries s' = Blocked s' ∧
        (∀ action, run (ForEach action) s' = Blocked s') ∧
        (∀ m, run (handleMessage m) s' = Blocked s').
Proof.
  intros Hmu. exists (set_dataMu true s). split_and!; try done.
  - unfold IsEmpty. cbn. by rewrite Hmu.
Qed.

(** ** What [Entries] returns *)

Lemma copy_into (kvs : list (string * Value)) (m0 : gmap string Value) :
  foldl (λ mp kv, <[kv.1 := kv.2]> mp) m0 kvs = list_to_map (reverse kvs) ∪ m0.
Proof.
  revert m0. induction kvs as [|[k v] kvs IH]; intros m0; cbn [foldl].
  - rewrite reverse_nil. cbn. by rewrite (left_id_L ∅ (∪)).
  - rewrite IH, reverse_cons, list_to_map_app. cbn.
    by rewrite <- (assoc_L (∪)), <- insert_union_l, (left_id_L ∅ (∪)).
Qed.

Lemma copy_of_range (seed : nat) (mp : gmap string Value) :
  foldl (λ m kv, <[kv.1 := kv.2]> m) ∅ (range_map seed mp) = mp.
Proof.
  rewrite copy_into, (right_id_L ∅ (∪)).
  rewrite <- (list_to_map_to_list mp) at 2.
  apply list_to_map_proper.
  - rewrite reverse_Permutation, range_map_perm.
    apply NoDup_fst_map_to_list.
  - by rewrite reverse_Permutation, range_map_perm.
Qed.

(** X23: [Entries] returns the map object of the view itself, not the copy
    it builds: the copy, a fresh object equal to the state store at the time
    of the call, is dropped. On a view whose [SchemaValueType] is set, a
    record applied after the call shows in the map that was returned and not
    in the copy. *)
Theorem Entries_returns_the_store_itself (m : Message) (s : State) :
  dataMu (tv s) = false →
  SchemaValueTypeIsNil (options (tv s)) = false →
  data (tv s) < nextRef (world s) →
  ∃ s' s'', run Entries s = Done (data (tv s)) s' ∧
            tv s' = tv s ∧
            mapHeap (world s') (data (tv s)) = tv_data s ∧
            mapHeap (world s') (nextRef (world s)) = tv_data s ∧
            run (handleMessage m) s' = Done tt s'' ∧
            mapHeap (world s'') (data (tv s)) = apply_record m (tv_data s) ∧
            mapHeap (world s'') (nextRef (world s)) = tv_data s.
Proof.
  intros Hmu Hty Hlt.
  assert (data (tv s) ≠ nextRef (world s)) as Hne by lia.
  unfold Entries. simpl. rewrite Hmu. simpl.
  rewrite (run_for_each (λ _, True) (copy_step (nextRef (world s))));
    [| intros [k v] s' _; reflexivity | done | done].
  simpl. rewrite copy_steps_tv. simpl.
  match goal with |- ∃ s' s'', Done _ ?s1 = _ ∧ _ => set (s1' := s1) end.
  assert (tv s1' = tv s) as Htv.
  { subst s1'. simpl. rewrite copy_steps_tv. destruct s as [[] ?]. simpl in *. by subst. }
  assert (mapHeap (world s1') (data (tv s)) = tv_data s) as Hstore.
  { subst s1'. simpl. rewrite copy_steps_heap by done. simpl.
    by rewrite fn_lookup_insert_ne. }
  assert (mapHeap (world s1') (nextRef (world s)) = tv_data s) as Hcopy.
  { subst s1'. simpl. rewrite copy_steps_fresh. simpl.
    rewrite fn_lookup_insert, copy_of_range. unfold tv_data. simpl.
    by rewrite fn_lookup_insert_ne. }
  clearbody s1'.
  exists s1', (handleMessage_state m s1'). split_and!; try done.
  - apply run_handleMessage; by rewrite Htv.
  - unfold handleMessage_state. simpl. rewrite Htv, fn_lookup_insert.
    unfold tv_data. by rewrite Htv, Hstore.
  - unfold handleMessage_state. simpl. rewrite Htv.
    by rewrite fn_lookup_insert_ne.
Qed.

(** ** A view without a value type *)

(** X24: on a view whose [SchemaValueType] is nil, [handleMessage] panics at
    [reflect.New] for every record, tombstone or not: at the panic it has
    taken [dataMu] and done nothing else, so the state store is untouched and
    no listener has been called. The tailing loop panics at the first record
    it receives. *)
Theorem handleMessage_panics_without_value_type (m : Message) (topic : string)
    (fs : list Fetch) (s : State) :
  dataMu (tv s) = false →
  SchemaValueTypeIsNil (options (tv s)) = true →
  run (handleMessage m) s = Panicked (set_dataMu true s) ∧
  run (watchReaderForNewMessages topic (mkFetch (Some m) None :: fs)) s =
    Panicked (set_dataMu true s).
Proof.
  intros Hmu Hty. split.
  - pose proof (run_handleMessage_nil m (Ret tt) s Hmu Hty) as Hp.
    rewrite run_bind in Hp.
    destruct (run (handleMessage m) s) as [[] s1|s1|s1]; cbn in Hp; congruence.
  - cbn [watchReaderForNewMessages]. rewrite !run_bind. cbn.
    change (reader_is_done None) with false. cbn.
    by rewrite run_handleMessage_nil.
Qed.



End TableViewFacts.

(** * The claims on the concrete view *)

Ltac by_evaluation :=
  repeat match goal with |- _ ∧ _ => split end;
  vm_compute; (reflexivity || discriminate).

(** C1, as the code has it: a record applied while [ForEachAndListen] runs is
    lost for the new listener. [handleMessage] takes [dataMu] only, so it can
    run between the end of the snapshot (the [Unlock] of [dataMu] inside
    [ForEach]) and the registration of the callback, which is guarded by
    [listenersMu] alone. Under [race_schedule] the call returns and the
    tailing loop is back waiting in [Next]; the record [z3] is in the state
    store, the callback is registered, and it was called for the two entries
    of the snapshot only; the schedule has one step per action of the two, so
    neither waited. Run one after the other, the same two deliver [z3] to
    the callback. *)
Theorem ForEachAndListen_misses_concurrent_record :
  interleave race_schedule (ForEachAndListen action7) tailing_z3 view1
    = (Ret None, Ret false, race_end) ∧
  tv_data race_end !! "z" = Some 3%Z ∧
  lid <$> listeners (tv race_end) = [7] ∧
  delivered (world race_end) = [(7, "x", Some 5%Z); (7, "y", Some 9%Z)] ∧
  run (ForEachAndListen action7 >> tailing_z3) view1 = Done false sequential_end ∧
  delivered (world sequential_end) =
    [(7, "x", Some 5%Z); (7, "y", Some 9%Z); (7, "z", Some 3%Z)].
Proof. by_evaluation. Qed.

(** C2, as the code has it: [Entries] builds a copy in a fresh map object
    (reference 1 here) and returns [tv.data] (reference 0), the map the view
    goes on writing to. A tombstone applied after the call removes "x" from
    the map that was returned; the copy, which nobody holds, still has it. *)
Theorem Entries_returns_the_live_map :
  run Entries view1 = Done (data (tv view1)) view_entries ∧
  data (tv view1) = 0 ∧
  mapHeap (world view_entries) 0 !! "x" = Some 5%Z ∧
  run (handleMessage x_deleted) view_entries = Done tt view_entries_deleted ∧
  mapHeap (world view_entries_deleted) 0 !! "x" = None ∧
  mapHeap (world view_entries_deleted) 1 !! "x" = Some 5%Z.
Proof. by_evaluation. Qed.



(** C5, the claim as stated fails: for the tombstone [x_deleted] the callback
    is called with the zero value 0, not with an absent value, although "x"
    is gone from the state store. *)
Lemma tombstone_notification_is_not_absent :
  run (handleMessage x_deleted) view_listening = Done tt view_listening_deleted ∧
  tv_data view_listening_deleted !! "x" = None ∧
  last (delivered (world view_listening_deleted)) = Some (7, "x", Some 0%Z) ∧
  last (delivered (world view_listening_deleted)) ≠ Some (7, "x", None).
Proof. by_evaluation. Qed.

Lemma tombstone_notification_witness :
  ∃ s', run (handleMessage x_deleted) view_listening = Done tt s' ∧
        tv_data s' = delete (Key x_deleted) (tv_data view_listening) ∧
        delivered (world s') =
          delivered (world view_listening) ++
          ((λ l, (lid l, Key x_deleted, Some zeroValue)) <$> listeners (tv view_listening)).
Proof.
  apply (tombstone_notification x_deleted view_listening); vm_compute; reflexivity.
Defined.

(** C6, as the code has it: [Close] closes the two readers and the done
    channel, and calls no cancellation handle: [cancelled] stays empty, the
    entries stay in the registry. A second [Close] changes nothing and the
    watcher returns at the end of its round. *)
Theorem Close_calls_no_cancelFunc :
  run Close view1 = Done tt view_closed ∧
  closedReaders (world view_closed) = [2; 0] ∧
  closedCh (tv view_closed) = true ∧
  cancelReaders (tv view_closed) !! "t-0" = Some (mkCancelReader 2 3) ∧
  cancelReaders (tv view_closed) !! "t-1" = Some (mkCancelReader 0 1) ∧
  cancelled (world view_closed) = [] ∧
  run Close view_closed = Done tt view_closed ∧
  run (periodicPartitionUpdateCheck 1) view_closed =
    Done true (state_of (run (periodicPartitionUpdateCheck 1) view_closed)).
Proof. by_evaluation. Qed.

Lemma Get_after_records_witness :
  ∃ s', run (handleMessages [x5; x7]) view1 = Done tt s' ∧
        (∀ topic, run (watchReaderForNewMessages topic (fetched [x5; x7])) view1
                  = Done false s') ∧
        run (Get "x") s' = Done (Some (GetSchemaValue x7 zeroValue).1) s' ∧
        (∀ v, decode (Payload x7) = inl v → run (Get "x") s' = Done (Some v) s').
Proof.
  apply (Get_after_records "x" [x5; x7] x7 view1).
  - vm_compute; reflexivity.
  - vm_compute; reflexivity.
  - repeat constructor; discriminate.
  - reflexivity.
Defined.

(** C8, the claim as stated fails: the reader of "t-1" never opens and the
    partition set is the same in both calls. The first reconcile meets "t-1"
    first and stops with an empty registry; the second one meets "t-0"
    first, opens a reader for it and registers it before it stops. *)
Lemma reconcile_twice_after_failure :
  run partitionUpdateCheck view_bad = Done (Some t1_refused) view_bad1 ∧
  run partitionUpdateCheck view_bad1 = Done (Some t1_refused) view_bad2 ∧
  brokerPartitions (world view_bad1) "t" = inl ["t-0"; "t-1"] ∧
  brokerPartitions (world view_bad) "t" = inl ["t-0"; "t-1"] ∧
  cancelReaders (tv view_bad1) = ∅ ∧
  opened (world view_bad1) = [] ∧
  cancelReaders (tv view_bad2) !! "t-0" = Some (mkCancelReader 0 1) ∧
  opened (world view_bad2) = [("t-0", 0)] ∧
  cancelReaders (tv view_bad2) ≠ cancelReaders (tv view_bad1).
Proof. by_evaluation. Qed.

Lemma reconcile_idempotent_after_success_witness :
  ∃ s3, run partitionUpdateCheck view1 = Done None s3 ∧
        cancelReaders (tv s3) = cancelReaders (tv view1) ∧
        opened (world s3) = opened (world view1) ∧
        closedReaders (world s3) = closedReaders (world view1) ∧
        cancelled (world s3) = cancelled (world view1) ∧
        tv_data s3 = tv_data view1.
Proof.
  apply (reconcile_idempotent_after_success view0 view1 view1 ["t-0"; "t-1"] ["t-0"; "t-1"]);
    try (vm_compute; reflexivity).
  intros q. reflexivity.
Defined.

Lemma removed_partition_keeps_entries_witness :
  ∃ r s', run partitionUpdateCheck view_shrunk = Done r s' ∧
    cancelReaders (tv s') !! "t-1" = None ∧
    cancelFunc (mkCancelReader 0 1) ∈ cancelled (world s') ∧
    reader (mkCancelReader 0 1) ∈ closedReaders (world s') ∧
    data (tv s') = data (tv view_shrunk) ∧
    (∀ k, (∀ q fs m, q ∈ ["t-0"] → cancelReaders (tv view_shrunk) !! q = None →
                     brokerBacklog (world view_shrunk) q = inl fs →
                     m ∈ backlog_messages fs → Key m ≠ k) →
          tv_data s' !! k = tv_data view_shrunk !! k) ∧
    ((∀ q, q ∈ ["t-0"] → is_Some (cancelReaders (tv view_shrunk) !! q)) →
     tv_data s' = tv_data view_shrunk).
Proof.
  apply (removed_partition_keeps_entries view_shrunk ["t-0"] "t-1" (mkCancelReader 0 1));
    try (vm_compute; reflexivity).
  apply (bool_decide_unpack _). vm_compute. exact I.
Defined.

Lemma decode_failure_stores_zero_witness :
  ∃ s', run (handleMessage x_garbled) view1 = Done tt s' ∧
        tv_data s' = <[Key x_garbled := zeroValue]> (tv_data view1) ∧
        run (Get (Key x_garbled)) s' = Done (Some zeroValue) s' ∧
        LogGetSchemaValueFailed (ExternalError "int8: the payload is not one byte") x_garbled
          ∈ logged (world s').
Proof.
  apply (decode_failure_stores_zero x_garbled
           (ExternalError "int8: the payload is not one byte") view1).
  - vm_compute; reflexivity.
  - vm_compute; reflexivity.
  - discriminate.
  - reflexivity.
Defined.

(** * The further properties on the concrete view *)

Lemma last_record_decides_witness :
  ∃ s', run (handleMessages [x5; x_deleted; y9]) view1 = Done tt s' ∧
        run (Get "x") s' =
          Done (after_records "x" [x5; x_deleted; y9] (tv_data view1 !! "x")) s' ∧
        run (ContainsKey "x") s' =
          Done (bool_decide
                  (is_Some (after_records "x" [x5; x_deleted; y9] (tv_data view1 !! "x")))) s'.
Proof.
  apply (last_record_decides "x" [x5; x_deleted; y9] view1); vm_compute; reflexivity.
Defined.

Lemma Size_after_record_witness :
  ∃ s', run (handleMessage x_deleted) view1 = Done tt s' ∧
        run Size s' = Done (size_after x_deleted (tv_data view1)) s'.
Proof.
  apply (Size_after_record x_deleted view1); vm_compute; reflexivity.
Defined.

Lemma Keys_are_the_keys_witness :
  ∃ ks s', run Keys view1 = Done ks s' ∧
           NoDup ks ∧
           run Size s' = Done (length ks) s' ∧
           (∀ k, k ∈ ks ↔ run (ContainsKey k) s' = Done true s') ∧
           tv s' = tv view1 ∧ tv_data s' = tv_data view1.
Proof.
  apply (Keys_are_the_keys view1); vm_compute; reflexivity.
Defined.

Lemma ForEach_stops_at_first_error_witness :
  ∃ s', run (ForEach action_stops_at_y) view1 = Done (Some (ExternalError "stop")) s' ∧
        delivered (world s') =
          delivered (world view1) ++
          calls action_stops_at_y ([("x", 5%Z)] ++ [("y", 9%Z)]) ∧
        dataMu (tv s') = false ∧
        tv_data s' = tv_data view1.
Proof.
  apply (ForEach_stops_at_first_error action_stops_at_y [("x", 5%Z)] [] "y" 9%Z
           (ExternalError "stop") view1).
  - vm_compute; reflexivity.
  - vm_compute; reflexivity.
  - repeat constructor.
  - reflexivity.
Defined.

Lemma ForEach_visits_every_entry_witness :
  ∃ kvs s', run (ForEach action7) view1 = Done None s' ∧
            kvs ≡ₚ map_to_list (tv_data view1) ∧
            delivered (world s') = delivered (world view1) ++ calls action7 kvs ∧
            dataMu (tv s') = false ∧
            tv_data s' = tv_data view1.
Proof.
  apply (ForEach_visits_every_entry action7 view1).
  - vm_compute; reflexivity.
  - intros k v _. reflexivity.
Defined.

Lemma ForEachAndListen_error_does_not_register_witness :
  ∃ s', run (ForEachAndListen action_stops_at_y) view_listening
          = Done (Some (ExternalError "stop")) s' ∧
        listeners (tv s') = listeners (tv view_listening) ∧
        listenersMu (tv s') = false ∧
        dataMu (tv s') = false ∧
        delivered (world s') =
          delivered (world view_listening) ++
          calls action_stops_at_y ([("x", 5%Z)] ++ [("y", 9%Z)]).
Proof.
  apply (ForEachAndListen_error_does_not_register action_stops_at_y [("x", 5%Z)] [] "y" 9%Z
           (ExternalError "stop") view_listening).
  - vm_compute; reflexivity.
  - vm_compute; reflexivity.
  - vm_compute; reflexivity.
  - repeat constructor.
  - reflexivity.
Defined.

Lemma every_listener_gets_every_record_witness :
  ∃ s', run (handleMessages [x7; y9]) view_listening = Done tt s' ∧
        listeners (tv s') = listeners (tv view_listening) ∧
        delivered (world s') =
          delivered (world view_listening) ++
          concat ((λ m, (λ l, (lid l, Key m, Some (target m))) <$> listeners (tv view_listening))
                    <$> [x7; y9]) ∧
        ∀ m l e, m ∈ [x7; y9] → l ∈ listeners (tv view_listening) →
                 lfun l (Key m) (Some (target m)) = Some e →
                 LogListenerFailed m e ∈ logged (world s').
Proof.
  apply (every_listener_gets_every_record [x7; y9] view_listening); vm_compute; reflexivity.
Defined.

Lemma ForEachAndListen_then_records_witness :
  ∃ kvs s', run (ForEachAndListen action7 >> handleMessages [z3]) view1 = Done tt s' ∧
            kvs ≡ₚ map_to_list (tv_data view1) ∧
            listeners (tv s') = listeners (tv view1) ++ [action7] ∧
            delivered (world s') =
              delivered (world view1) ++ calls action7 kvs ++
              concat ((λ m, (λ l, (lid l, Key m, Some (target m))) <$>
                              (listeners (tv view1) ++ [action7])) <$> [z3]).
Proof.
  apply (ForEachAndListen_then_records action7 [z3] view1).
  - vm_compute; reflexivity.
  - vm_compute; reflexivity.
  - vm_compute; reflexivity.
  - intros k v _. reflexivity.
Defined.

Lemma Close_closes_every_reader_once_witness :
  ∃ crs s', run Close view1 = Done tt s' ∧
            crs ≡ₚ map_to_list (cancelReaders (tv view1)) ∧
            closedReaders (world s') =
              closedReaders (world view1) ++ ((λ kv, reader kv.2) <$> crs) ∧
            closed (tv s') = true ∧ closedCh (tv s') = true ∧
            readersMu (tv s') = false ∧
            cancelReaders (tv s') = cancelReaders (tv view1) ∧
            tv_data s' = tv_data view1.
Proof.
  apply (Close_closes_every_reader_once view1); vm_compute; reflexivity.
Defined.

Lemma Close_again_changes_nothing_witness :
  ∃ s', run Close view_closed = Done tt s' ∧
        run Close s' = Done tt s' ∧
        (closed (tv view_closed) = true → s' = view_closed).
Proof.
  apply (Close_again_changes_nothing view_closed); vm_compute; reflexivity.
Defined.

Lemma partitionUpdateCheck_releases_the_mutexes_witness :
  ∃ r s', run partitionUpdateCheck view_bad = Done r s' ∧
          readersMu (tv s') = false ∧ dataMu (tv s') = false ∧
          listenersMu (tv s') = listenersMu (tv view_bad) ∧
          listeners (tv s') = listeners (tv view_bad) ∧
          closed (tv s') = closed (tv view_bad) ∧
          closedCh (tv s') = closedCh (tv view_bad).
Proof.
  apply (partitionUpdateCheck_releases_the_mutexes view_bad); vm_compute; reflexivity.
Defined.


Lemma periodic_check_goes_on_witness :
  ∃ s', run (periodicPartitionUpdateCheck 3) view_bad = Done false s' ∧
        closedCh (tv s') = false ∧
        readersMu (tv s') = false ∧ dataMu (tv s') = false.
Proof.
  apply (periodic_check_goes_on 3 view_bad); vm_compute; reflexivity.
Defined.

Lemma discovery_failure_is_logged_witness :
  run partitionUpdateCheck view_unknown = Done (Some u_unknown) view_unknown ∧
  run (periodicPartitionUpdateCheck 2) view_unknown =
    Done false
      (set_logged (logged (world view_unknown) ++
                   replicate 2 (LogPartitionCheckFailed u_unknown)) view_unknown).
Proof.
  apply (discovery_failure_is_logged 2 (ExternalError "topic not found") view_unknown);
    vm_compute; reflexivity.
Defined.

Lemma registry_matches_the_partitions_witness :
  (is_Some (cancelReaders (tv view1) !! "t-1") ↔ "t-1" ∈ ["t-0"; "t-1"]) ∧
  (is_Some (cancelReaders (tv view1) !! "t-2") ↔ "t-2" ∈ ["t-0"; "t-1"]).
Proof.
  split; apply (registry_matches_the_partitions view0 view1 ["t-0"; "t-1"]);
    vm_compute; reflexivity.
Defined.

Lemma only_gone_partitions_are_closed_witness :
  ∃ r s' gone,
    run partitionUpdateCheck view_shrunk = Done r s' ∧
    gone ≡ₚ filter (λ kv, kv.1 ∉ ["t-0"]) (map_to_list (cancelReaders (tv view_shrunk))) ∧
    closedReaders (world s') =
      closedReaders (world view_shrunk) ++ ((λ kv, reader kv.2) <$> gone) ∧
    cancelled (world s') = cancelled (world view_shrunk) ++ ((λ kv, cancelFunc kv.2) <$> gone).
Proof.
  apply (only_gone_partitions_are_closed view_shrunk ["t-0"]); vm_compute; reflexivity.
Defined.

Lemma one_reader_per_new_partition_witness :
  ∃ r s' new,
    run partitionUpdateCheck view0 = Done r s' ∧
    opened (world s') = opened (world view0) ++ new ∧
    NoDup new.*1 ∧
    (∀ q, q ∈ new.*1 → q ∈ ["t-0"; "t-1"] ∧ cancelReaders (tv view0) !! q = None) ∧
    (r = None → ∀ q, q ∈ ["t-0"; "t-1"] → cancelReaders (tv view0) !! q = None →
                     q ∈ new.*1).
Proof.
  apply (one_reader_per_new_partition view0 ["t-0"; "t-1"]); vm_compute; reflexivity.
Defined.

Lemma tailing_loop_applies_in_order_witness :
  ∃ s', run (watchReaderForNewMessages "t-0" [fetch_timeout; mkFetch (Some x7) None]) view1
          = Done false s' ∧
        run (drain "t-0" [fetch_timeout; mkFetch (Some x7) None]) view1 = Done tt s' ∧
        tv_data s' =
          foldl (λ mp m, apply_record m mp) (tv_data view1)
            (backlog_messages [fetch_timeout; mkFetch (Some x7) None]) ∧
        ∀ f e, f ∈ [fetch_timeout; mkFetch (Some x7) None] → ferr f = Some e →
               LogReadNextFailed "t-0" e ∈ logged (world s').
Proof.
  apply (tailing_loop_applies_in_order "t-0" [fetch_timeout; mkFetch (Some x7) None] view1).
  - vm_compute; reflexivity.
  - vm_compute; reflexivity.
  - repeat constructor.
Defined.

Lemma tailing_loop_stops_when_done_witness :
  ∃ e s', ferr fetch_cancelled = Some e ∧
          run (watchReaderForNewMessages "t-0"
                 ([mkFetch (Some z3) None] ++ fetch_cancelled :: [mkFetch (Some y9) None]))
              view1 = Done true s' ∧
          run (watchReaderForNewMessages "t-0" ([mkFetch (Some z3) None] ++ [fetch_cancelled]))
              view1 = Done true s' ∧
          tv_data s' =
            foldl (λ mp m, apply_record m mp) (tv_data view1)
              (backlog_messages [mkFetch (Some z3) None]) ∧
          LogReadNextFailed "t-0" e ∈ logged (world s').
Proof.
  apply (tailing_loop_stops_when_done "t-0" [mkFetch (Some z3) None]
           [mkFetch (Some y9) None] fetch_cancelled view1).
  - vm_compute; reflexivity.
  - vm_compute; reflexivity.
  - repeat constructor.
  - reflexivity.
Defined.

Lemma newTableView_result_witness :
  ∃ res, newTableView options_t one_bad_partition = Returns res ∧
    match res with
    | inl s =>
        readersMu (tv s) = false ∧ dataMu (tv s) = false ∧
        listenersMu (tv s) = false ∧ listeners (tv s) = [] ∧
        closed (tv s) = false ∧ closedCh (tv s) = false ∧
        Topic (options (tv s)) = Topic options_t ∧
        AutoUpdatePartitionsInterval (options (tv s)) ≠ 0%Z ∧
        ∀ q, is_Some (cancelReaders (tv s) !! q) ↔ q ∈ ["t-0"; "t-1"]
    | inr err =>
        ∃ q e, q ∈ ["t-0"; "t-1"] ∧ brokerBacklog one_bad_partition q = inr e ∧
               err = Errorf "create new reader failed for %s: %w" q e
    end.
Proof.
  apply (newTableView_result options_t one_bad_partition).
  - discriminate.
  - reflexivity.
Defined.

Lemma newTableView_single_partition_witness :
  ∃ s, newTableView options_t flaky_partition = Returns (inl s) ∧
       opened (world s) = opened flaky_partition ++ [("t-0", nextHandle flaky_partition)] ∧
       tv_data s =
         foldl (λ mp m, apply_record m mp) ∅
           (backlog_messages [fetch_timeout; mkFetch (Some x5) None]) ∧
       ∀ k, run (Get k) s =
            Done (after_records k (backlog_messages [fetch_timeout; mkFetch (Some x5) None])
                    None) s.
Proof.
  apply (newTableView_single_partition options_t flaky_partition "t-0"
           [fetch_timeout; mkFetch (Some x5) None]).
  - discriminate.
  - reflexivity.
  - reflexivity.
  - reflexivity.
Defined.

Lemma IsEmpty_blocks_the_state_store_witness :
  ∃ s', run IsEmpty view1 = Blocked s' ∧
        dataMu (tv s') = true ∧ tv_data s' = tv_data view1 ∧
        run IsEmpty s' = Blocked s' ∧
        run Size s' = Blocked s' ∧
        (∀ k, run (Get k) s' = Blocked s') ∧
        (∀ k, run (ContainsKey k) s' = Blocked s') ∧
        run Keys s' = Blocked s' ∧
        run Entries s' = Blocked s' ∧
        (∀ action, run (ForEach action) s' = Blocked s') ∧
        (∀ m, run (handleMessage m) s' = Blocked s').
Proof.
  apply (IsEmpty_blocks_the_state_store view1); vm_compute; reflexivity.
Defined.

Lemma Entries_returns_the_store_itself_witness :
  ∃ s' s'', run Entries view1 = Done (data (tv view1)) s' ∧
            tv s' = tv view1 ∧
            mapHeap (world s') (data (tv view1)) = tv_data view1 ∧
            mapHeap (world s') (nextRef (world view1)) = tv_data view1 ∧
            run (handleMessage x_deleted) s' = Done tt s'' ∧
            mapHeap (world s'') (data (tv view1)) = apply_record x_deleted (tv_data view1) ∧
            mapHeap (world s'') (nextRef (world view1)) = tv_data view1.
Proof.
  apply (Entries_returns_the_store_itself x_deleted view1).
  - vm_compute; reflexivity.
  - vm_compute; reflexivity.
  - vm_compute; lia.
Defined.

Lemma handleMessage_panics_without_value_type_witness :
  run (handleMessage x_deleted) view_untyped = Panicked (set_dataMu true view_untyped) ∧
  run (watchReaderForNewMessages "t-0" (mkFetch (Some x_deleted) None :: [fetch_timeout]))
      view_untyped = Panicked (set_dataMu true view_untyped).
Proof.
  apply (handleMessage_panics_without_value_type x_deleted "t-0" [fetch_timeout]
           view_untyped); vm_compute; reflexivity.
Defined.

